(** * Quantum cache manager

    A shallow embedding of [src/quantum_cache.c]: the process-wide cache of
    64-bit seeds, its life cycle ([quantum_cache_init],
    [quantum_cache_destroy]), the bulk re-seeding ([quantum_cache_preload]),
    the point lookup ([quantum_cache_get_random]) and the phase derivation
    ([compute_quantum_phase]).

    Conventions.
    - [size_t] and [uint64_t] values are naturals ([N]); every wrap-around
      of the C arithmetic is written out with [U64.wrap].
    - [double] is IEEE 754 binary64, given by the executable specification
      [SpecFloat] of the Standard Library at precision 53 and [emax] 1024,
      rounding to nearest, ties to even.
    - The global pointer [global_cache] is an [option quantum_cache] that
      every operation receives and returns.
    - What the C code asks of its environment ([malloc],
      [pthread_rwlock_init], [drand48], [clock_gettime]) is read from a
      [world] record handed to the call.
    - The reader/writer lock orders concurrent calls; the model is the
      sequential behaviour of one call at a time. *)

From Stdlib Require Import ZArith NArith Lia Bool List.
From Stdlib Require Import Strings.Byte Floats.SpecFloat.
From stdpp Require Import base list.

(** ** Unsigned 64-bit arithmetic *)

Module U64.
Local Open Scope N_scope.

Definition modulus : N := 2 ^ 64.
Definition UINT64_MAX : N := 18446744073709551615.

(** Reduction of a mathematical result to [uint64_t]. *)
Definition wrap (x : N) : N := x mod modulus.

(** The cast [(uint64_t) z] of a signed integer. *)
Definition of_Z (z : Z) : N := Z.to_N (z mod 2 ^ 64).

Definition add (x y : N) : N := wrap (x + y).
Definition mul (x y : N) : N := wrap (x * y).
Definition shiftl (x n : N) : N := wrap (N.shiftl x n).
Definition shiftr (x n : N) : N := N.shiftr x n.
End U64.

(** ** Binary64 floating point *)

Module B64.
Definition prec : Z := 53.
Definition emax : Z := 1024.

Abbreviation double := spec_float.

Definition mul : double -> double -> double := SFmul prec emax.
Definition div : double -> double -> double := SFdiv prec emax.
Definition leb : double -> double -> bool := SFleb.
Definition ltb : double -> double -> bool := SFltb.

(** The conversion [(double) x] of a [uint64_t]. *)
Definition of_u64 (x : N) : double :=
  binary_normalize prec emax (Z.of_N x) 0 false.

(** The conversion [(uint64_t) x] of a [double]: the fractional part is
    discarded.  C leaves the conversion undefined when the integral part
    is not a [uint64_t]; the model answers 0 there. *)
Definition to_u64 (x : double) : N :=
  match x with
  | S754_finite false m e =>
      let z := Z.shiftl (Zpos m) e in
      if (z <? 2 ^ 64)%Z then Z.to_N z else 0%N
  | _ => 0%N
  end.

Definition zero : double := S754_zero false.
Definition half : double := S754_finite false 4503599627370496 (-53).
Definition one : double := S754_finite false 4503599627370496 (-52).
Definition two : double := S754_finite false 4503599627370496 (-51).

(** [M_PI] of <math.h>: the double 0x400921FB54442D18. *)
Definition M_PI : double := S754_finite false 7074237752028440 (-51).

(** The doubles 2^64 and 2 * [M_PI]. *)
Definition two_pow_64 : double := S754_finite false 4503599627370496 12.
Definition two_pi : double := S754_finite false 7074237752028440 (-50).

(** The real ratio [n / 2^k], correctly rounded. *)
Definition ratio_pow2 (n : N) (k : Z) : double :=
  binary_normalize prec emax (Z.of_N n) (- k) false.

(** The rounding of SpecFloat's [binary_round_aux] with the exponent
    taken out: the mantissa it produces and by how much it raises the
    exponent. *)
Definition round_rel (m : Z) (l : location) : Z * Z :=
  let s1 := SpecFloat.shr (shr_record_of_loc m l) 0 (Zdigits2 m - prec) in
  let m1 :=
    round_nearest_even (shr_m (fst s1)) (loc_of_shr_record (fst s1)) in
  let s2 :=
    SpecFloat.shr (shr_record_of_loc m1 loc_Exact) 0 (Zdigits2 m1 - prec) in
  (shr_m (fst s2), (snd s1 + snd s2)%Z).

(** The double a mantissa and an exponent stand for, overflow apart. *)
Definition of_mantissa (sx : bool) (m e : Z) : double :=
  match m with
  | Z0 => S754_zero sx
  | Zpos p =>
      if (e <=? emax - prec)%Z then S754_finite sx p e
      else S754_infinity sx
  | Zneg _ => S754_nan
  end.

(** The same for [binary_normalize]: a mantissa of fewer than [prec]
    digits is first padded with zeros on the right. *)
Definition normalize_rel (m : Z) : Z * Z :=
  if (Zdigits2 m <? prec)%Z then
    ((m * 2 ^ (prec - Zdigits2 m))%Z, (Zdigits2 m - prec)%Z)
  else round_rel m loc_Exact.

End B64.

(** ** The cache and its operations *)

Module QC.
Import U64 B64.
Local Open Scope N_scope.

(** [struct quantum_cache]; the lock carries no data. *)
Record quantum_cache := {
  seeds : list N;
  size : N;
  index : N
}.

(** [static struct quantum_cache *global_cache]: [None] is [NULL]. *)
Definition global := option quantum_cache.

(** What one call observes of its environment.  [drand48 i] is the 48-bit
    state of the generator at the call's [i]-th draw (the draw returns
    that state divided by 2^48); [clock_gettime i] is the [(tv_sec,
    tv_nsec)] pair the [i]-th sample of the monotonic clock returns. *)
Record world := {
  malloc_cache_ok : bool;
  malloc_seeds_ok : bool;
  rwlock_init_ok : bool;
  drand48 : N -> Z;
  clock_gettime : N -> Z * Z
}.

(** [for (size_t i = 0; i < n; i++) a = body i a]. *)
Definition for_upto {A : Type} (n : N) (body : N -> A -> A) (a : A) : A :=
  fold_left (fun acc i => body (N.of_nat i) acc) (seq 0 (N.to_nat n)) a.

(** [for (size_t i = start; cond i; i++) a = body i a], for at most [fuel]
    rounds. *)
Fixpoint for_while {A : Type} (fuel : nat) (cond : N -> bool)
    (body : N -> A -> A) (i : N) (a : A) : A :=
  match fuel with
  | O => a
  | S fuel' =>
      if cond i then for_while fuel' cond body (N.succ i) (body i a) else a
  end.

(** The array store [a[i] = v]. *)
Definition store (i : N) (v : N) (a : list N) : list N :=
  <[N.to_nat i := v]> a.

(** The array read [a[i]]; reads past the allocation are undefined in C
    and answer 0 here. *)
Definition load (i : N) (a : list N) : N := nth (N.to_nat i) a 0.

(** The value a draw of [drand48] returns for generator state [x]. *)
Definition drand48_value (x : Z) : double :=
  binary_normalize prec emax (x mod 2 ^ 48) (-48) false.

(** [(uint64_t)(drand48() * UINT64_MAX)]. *)
Definition initial_seed (x : Z) : N :=
  to_u64 (B64.mul (drand48_value x) (of_u64 UINT64_MAX)).

Definition quantum_cache_init (w : world) (cache_size : N)
    (global_cache : global) : Z * global :=
  if (cache_size =? 0) || (10000000 <? cache_size) then
    ((-1)%Z, global_cache)
  else if negb (malloc_cache_ok w) then ((-2)%Z, None)
  else if negb (malloc_seeds_ok w) then ((-2)%Z, None)
  else if negb (rwlock_init_ok w) then ((-3)%Z, None)
  else
    (* the content of the fresh block is indeterminate; the loop
       overwrites every cell of it *)
    let block := repeat 0 (N.to_nat cache_size) in
    (0%Z,
     Some {| seeds :=
               for_upto cache_size
                 (fun i a => store i (initial_seed (drand48 w i)) a) block;
             size := cache_size;
             index := 0 |}).

Definition quantum_cache_destroy (global_cache : global) : global :=
  match global_cache with
  | None => None
  | Some _ => None
  end.

Definition quantum_cache_get_random (index : N) (global_cache : global)
    : double :=
  match global_cache with
  | None => half
  | Some c =>
      if size c <=? index then half
      else B64.div (of_u64 (load index (seeds c))) (of_u64 UINT64_MAX)
  end.

(** [strlen]: the number of bytes before the first NUL. *)
Fixpoint strlen (s : list byte) : nat :=
  match s with
  | [] => 0%nat
  | b :: s' => if Byte.eqb b x00 then 0%nat else S (strlen s')
  end.

(** [seed_mix = (seed_mix << 8) | (uint8_t)api_key[i]] over the string. *)
Definition fold_key (api_key : list byte) : N :=
  fold_left (fun seed_mix b => N.lor (U64.shiftl seed_mix 8) (Byte.to_N b))
            (firstn (strlen api_key) api_key) 0.

(** The seed written at index [i] from clock sample [ts]. *)
Definition mix (ts : Z * Z) (i : N) (seed_mix : N) : N :=
  let mixed_entropy :=
    N.lxor (N.lxor (N.lxor (U64.of_Z (snd ts)) (U64.of_Z (fst ts))) i)
           seed_mix in
  let mixed_entropy :=
    N.land (U64.add (U64.mul mixed_entropy 1103515245) 12345) UINT64_MAX in
  let mixed_entropy := N.lxor mixed_entropy (U64.shiftr mixed_entropy 32) in
  N.land (U64.add (U64.mul mixed_entropy 1664525) 1013904223) UINT64_MAX.

(** The key is [None] for the null pointer.  The loop condition is
    [i < count && i < global_cache->size]; it fails at [i = count] at the
    latest, so [count] rounds of fuel are never used up. *)
Definition quantum_cache_preload (w : world) (api_key : option (list byte))
    (count : N) (global_cache : global) : Z * global :=
  match api_key with
  | None => ((-1)%Z, global_cache)
  | Some key =>
      if (count =? 0) || (10000000 <? count) then ((-1)%Z, global_cache)
      else
        let '(ret, g) :=
          match global_cache with
          | None => quantum_cache_init w count global_cache
          | Some _ => (0%Z, global_cache)
          end in
        if negb (ret =? 0)%Z then (ret, g)
        else
          match g with
          | None => (0%Z, None) (* not reached: [ret] is 0 *)
          | Some c =>
              let seed_mix := fold_key key in
              (0%Z,
               Some {| seeds :=
                         for_while (N.to_nat count)
                           (fun i => (i <? count) && (i <? size c))
                           (fun i a =>
                              store i (mix (clock_gettime w i) i seed_mix) a)
                           0 (seeds c);
                       size := size c;
                       index := index c |})
          end
  end.

Definition compute_quantum_phase (circuit_id packet_hash : N)
    (global_cache : global) : double :=
  match global_cache with
  | None => M_PI
  | Some c =>
      let combined := N.lxor circuit_id packet_hash in
      let combined := N.lor (U64.shiftl combined 32) (U64.shiftr combined 32) in
      let index := combined mod size c in
      let random_value := quantum_cache_get_random index global_cache in
      B64.mul (B64.mul random_value two) M_PI
  end.

(** *** Calls and reachable states *)

Inductive call :=
| Init (w : world) (cache_size : N)
| Destroy
| Preload (w : world) (api_key : option (list byte)) (count : N)
| GetRandom (index : N)
| ComputePhase (circuit_id packet_hash : N).

(** The global state after a call. *)
Definition run (c : call) (g : global) : global :=
  match c with
  | Init w n => snd (quantum_cache_init w n g)
  | Destroy => quantum_cache_destroy g
  | Preload w k n => snd (quantum_cache_preload w k n g)
  | GetRandom _ => g
  | ComputePhase _ _ => g
  end.

Definition run_all (cs : list call) (g : global) : global :=
  fold_left (fun g c => run c g) cs g.

(** A state is reachable when some calls lead to it from the initial
    [global_cache = NULL]. *)
Inductive reachable : global -> Prop :=
| reachable_start : reachable None
| reachable_step c g : reachable g -> reachable (run c g).

(** *** State predicates *)

(** The data-model invariant of a present cache: the capacity is in
    [1, 10_000_000], the store has exactly that many entries, and every
    entry is a [uint64_t]. *)
Definition well_formed (g : global) : Prop :=
  match g with
  | None => True
  | Some c =>
      1 <= size c <= 10000000 /\
      length (seeds c) = N.to_nat (size c) /\
      Forall (fun s => s < U64.modulus) (seeds c)
  end.

(** [0.0 <= x <= 1.0] and [0.0 <= x < 1.0]. *)
Definition in_unit_closed (x : double) : bool :=
  B64.leb zero x && B64.leb x one.
Definition in_unit_half_open (x : double) : bool :=
  B64.leb zero x && B64.ltb x one.

(** *** The formulas of the specification *)

(** Rotation of a 64-bit word by 32 bits: its halves swapped. *)
Definition swap_halves (x : N) : N := (x mod 2 ^ 32) * 2 ^ 32 + x / 2 ^ 32.

(** The accumulator [K]: every byte of the key folded in by a shift
    left of 8 bits, wrapping, and an OR. *)
Definition spec_key_fold (key : list byte) : N :=
  fold_left (fun K b => N.lor ((K * 2 ^ 8) mod 2 ^ 64) (Byte.to_N b)) key 0.

(** Steps 3 to 6 of the entropy mixing. *)
Definition spec_mix (nanoseconds seconds i K : N) : N :=
  let E := N.lxor (N.lxor (N.lxor nanoseconds seconds) i) K in
  let E := (E * 1103515245 + 12345) mod 2 ^ 64 in
  let E := N.lxor E (E / 2 ^ 32) in
  (E * 1664525 + 1013904223) mod 2 ^ 64.

(** A world in which every request succeeds; draws and clock are given. *)
Definition fair_world (draws : N -> Z) (clock : N -> Z * Z) : world :=
  {| malloc_cache_ok := true; malloc_seeds_ok := true;
     rwlock_init_ok := true; drand48 := draws; clock_gettime := clock |}.
End QC.


(** ** Sample worlds, keys and states *)

Module Samples.
Import QC.
Local Open Scope N_scope.

(** Every request succeeds, every draw is 0 and the clock stands at 0. *)
Definition still_world : world :=
  fair_world (fun _ => 0%Z) (fun _ => (0%Z, 0%Z)).

(** Draws and clock samples that differ from call to call. *)
Definition busy_world : world :=
  fair_world (fun i => (Z.of_N i * 1000003 + 77)%Z)
             (fun i => (5%Z, (Z.of_N i * 1000 + 1)%Z)).

(** A key of eight bytes that [mix] sends to [UINT64_MAX] at index 0 of
    [still_world]. *)
Definition top_key : list byte := [x09; xba; x93; x6d; xbb; x28; x05; x94].

Definition abc_key : list byte := [x61; x62; x63].

Definition three_seeds : quantum_cache :=
  {| seeds := [5; U64.UINT64_MAX; 9223372036854775808];
     size := 3; index := 0 |}.
End Samples.

(** ** Reading the mixing backwards *)

Module Unmix.
Import QC.
Local Open Scope N_scope.





(** The number a byte string writes in base 256, first byte highest. *)
Definition key_value (key : list byte) : N :=
  fold_left (fun v b => v * 256 + Byte.to_N b) key 0.
End Unmix.

(** * Facts about binary64 rounding *)

Module B64_facts.
Import B64.
Local Open Scope Z_scope.

(** The constants are the doubles their names say. *)
Example constants_check :
  of_u64 1 = one /\ of_u64 2 = two /\ div one two = half /\
  div (of_u64 3141592653589793) (of_u64 1000000000000000) = M_PI /\
  mul two M_PI = two_pi /\ mul two_pow_64 half = of_u64 (2 ^ 63) /\
  SFclassify prec M_PI = FloatClass.PNormal.
Proof. vm_compute. repeat split. Qed.

Lemma iter_pos_nat {A : Type} (f : A -> A) (p : positive) (x : A) :
  SpecFloat.iter_pos f p x = Nat.iter (Pos.to_nat p) f x.
Proof.
  revert x; induction p as [p IH | p IH |]; intros x; cbn [SpecFloat.iter_pos].
  - rewrite !IH, Pos2Nat.inj_xI.
    replace (S (2 * Pos.to_nat p))%nat
      with (Pos.to_nat p + (Pos.to_nat p + 1))%nat by lia.
    rewrite !Nat.iter_add. reflexivity.
  - rewrite !IH, Pos2Nat.inj_xO.
    replace (2 * Pos.to_nat p)%nat
      with (Pos.to_nat p + Pos.to_nat p)%nat by lia.
    rewrite Nat.iter_add. reflexivity.
  - reflexivity.
Qed.

Lemma digits2_pos_size (p : positive) : digits2_pos p = Pos.size p.
Proof. induction p; cbn; congruence. Qed.

Lemma Zdigits2_log2 (m : Z) : 0 < m -> Zdigits2 m = Z.log2 m + 1.
Proof.
  destruct m as [| p | p]; try lia. intros _.
  cbn [Zdigits2]. rewrite digits2_pos_size.
  destruct p; cbn [Pos.size Z.log2]; lia.
Qed.

Lemma Zdigits2_unique (m d : Z) :
  0 < d -> 2 ^ (d - 1) <= m < 2 ^ d -> Zdigits2 m = d.
Proof.
  intros Hd Hm.
  assert (0 < m) by (pose proof (Z.pow_pos_nonneg 2 (d - 1)); lia).
  rewrite Zdigits2_log2 by assumption.
  rewrite (Z.log2_unique m (d - 1)).
  - lia.
  - lia.
  - replace (Z.succ (d - 1)) with d by lia. assumption.
Qed.

Lemma Zdigits2_bounds (m : Z) :
  0 < m -> 2 ^ (Zdigits2 m - 1) <= m < 2 ^ Zdigits2 m.
Proof.
  intros Hm. rewrite Zdigits2_log2 by assumption.
  replace (Z.log2 m + 1 - 1) with (Z.log2 m) by lia.
  pose proof (Z.log2_spec m Hm). unfold Z.succ in *. lia.
Qed.

Lemma Zdigits2_nonneg (m : Z) : 0 <= Zdigits2 m.
Proof. destruct m; cbn; lia. Qed.

Lemma fexp_rel (d e : Z) :
  0 <= d -> -1021 <= e -> fexp prec emax (d + e) - e = d - prec.
Proof. unfold fexp, SpecFloat.emin, prec, emax. lia. Qed.

Lemma shr_1_spec (m : Z) (r s : bool) :
  0 <= m ->
  shr_1 (Build_shr_record m r s)
  = Build_shr_record (m / 2) (Z.odd m) (r || s).
Proof.
  intros Hm. rewrite <- Z.div2_div.
  destruct m as [| [p | p |] | p]; try lia; reflexivity.
Qed.

Lemma iter_shr_1 (k : nat) (m : Z) :
  0 <= m ->
  Nat.iter (S k) shr_1 (Build_shr_record m false false)
  = Build_shr_record (m / 2 ^ (Z.of_nat k + 1)) (Z.testbit m (Z.of_nat k))
      (negb (m mod 2 ^ Z.of_nat k =? 0)).
Proof.
  intros Hm. induction k as [| k IH].
  - cbn [Nat.iter]. rewrite shr_1_spec by assumption.
    rewrite Z.bit0_odd. change (2 ^ (Z.of_nat 0 + 1)) with 2.
    change (2 ^ Z.of_nat 0) with 1. rewrite Z.mod_1_r. reflexivity.
  - change (Nat.iter (S (S k)) shr_1 ?x) with (shr_1 (Nat.iter (S k) shr_1 x)).
    rewrite IH.
    assert (Hp : 0 < 2 ^ Z.of_nat k) by (apply Z.pow_pos_nonneg; lia).
    rewrite shr_1_spec by (apply Z.div_pos; [lia | apply Z.pow_pos_nonneg; lia]).
    replace (Z.of_nat (S k)) with (Z.of_nat k + 1) by lia.
    f_equal.
    + assert (Hq : 0 < 2 ^ (Z.of_nat k + 1)) by (apply Z.pow_pos_nonneg; lia).
      rewrite Z.div_div by lia. f_equal.
      rewrite (Z.pow_add_r 2 (Z.of_nat k + 1) 1) by lia. reflexivity.
    + rewrite Z.testbit_odd, Z.shiftr_div_pow2 by lia. reflexivity.
    + rewrite (Z.pow_add_r 2 (Z.of_nat k) 1) by lia.
      change (2 ^ 1) with 2.
      rewrite Z.rem_mul_r by lia.
      rewrite Z.testbit_eqb by lia.
      pose proof (Z.mod_pos_bound m (2 ^ Z.of_nat k) Hp).
      pose proof (Z.mod_pos_bound (m / 2 ^ Z.of_nat k) 2 ltac:(lia)).
      destruct (Z.eqb_spec ((m / 2 ^ Z.of_nat k) mod 2) 1),
        (Z.eqb_spec (m mod 2 ^ Z.of_nat k) 0),
        (Z.eqb_spec (m mod 2 ^ Z.of_nat k + 2 ^ Z.of_nat k * ((m / 2 ^ Z.of_nat k) mod 2)) 0);
        cbn; try reflexivity; nia.
Qed.

Lemma shr_from0 (mrs : shr_record) (e n : Z) :
  SpecFloat.shr mrs e n
  = (fst (SpecFloat.shr mrs 0 n), e + snd (SpecFloat.shr mrs 0 n)).
Proof. destruct n; cbn; f_equal; lia. Qed.

Lemma shr_snd_nonneg (mrs : shr_record) (n : Z) :
  0 <= snd (SpecFloat.shr mrs 0 n).
Proof. destruct n; cbn; lia. Qed.

Lemma shr_none (mrs : shr_record) (e n : Z) :
  n <= 0 -> SpecFloat.shr mrs e n = (mrs, e).
Proof. destruct n; try reflexivity; lia. Qed.

Lemma shr_spec (m e n : Z) :
  0 <= m -> 0 < n ->
  SpecFloat.shr (Build_shr_record m false false) e n
  = (Build_shr_record (m / 2 ^ n) (Z.testbit m (n - 1))
       (negb (m mod 2 ^ (n - 1) =? 0)),
     e + n).
Proof.
  intros Hm Hn. destruct n as [| p | p]; try lia.
  unfold SpecFloat.shr. rewrite iter_pos_nat.
  destruct (Pos.to_nat p) as [| k] eqn:Hk; [lia |].
  rewrite iter_shr_1 by assumption.
  replace (Z.of_nat k + 1) with (Z.pos p) by lia.
  replace (Z.of_nat k) with (Z.pos p - 1) by lia.
  reflexivity.
Qed.

(** [binary_round_aux] is [round_rel] put back at the exponent. *)
Lemma binary_round_aux_rel (sx : bool) (m e : Z) (l : location) :
  -1021 <= e ->
  binary_round_aux prec emax sx m e l
  = of_mantissa sx (fst (round_rel m l)) (e + snd (round_rel m l)).
Proof.
  intros He. unfold binary_round_aux, round_rel, shr_fexp.
  rewrite fexp_rel by (auto using Zdigits2_nonneg).
  rewrite shr_from0.
  set (s1 := SpecFloat.shr (shr_record_of_loc m l) 0 (Zdigits2 m - prec)).
  set (m1 := round_nearest_even (shr_m (fst s1)) (loc_of_shr_record (fst s1))).
  assert (0 <= snd s1) by apply shr_snd_nonneg.
  rewrite fexp_rel by (auto using Zdigits2_nonneg; lia).
  rewrite shr_from0.
  set (s2 := SpecFloat.shr (shr_record_of_loc m1 loc_Exact) 0 (Zdigits2 m1 - prec)).
  cbn [fst snd]. rewrite Z.add_assoc. reflexivity.
Qed.

Lemma round_nearest_even_cases (m : Z) (l : location) :
  round_nearest_even m l = m \/ round_nearest_even m l = m + 1.
Proof.
  destruct l as [| []]; cbn; auto. destruct (Z.even m); auto.
Qed.

Lemma round_nearest_even_down (m : Z) (s : bool) :
  round_nearest_even m
    (loc_of_shr_record (Build_shr_record m false s)) = m.
Proof. destruct s; reflexivity. Qed.

(** A mantissa of exactly [prec] digits followed by [n] zeros is
    rounded to itself. *)
Lemma round_rel_exact (q n : Z) :
  0 < q -> Zdigits2 q = prec -> 0 <= n ->
  round_rel (q * 2 ^ n) loc_Exact = (q, n).
Proof.
  intros Hq0 Hq Hn.
  pose proof (Zdigits2_bounds q Hq0) as Hb. rewrite Hq in Hb.
  assert (Hp : 0 < 2 ^ n) by (apply Z.pow_pos_nonneg; lia).
  assert (Hd : Zdigits2 (q * 2 ^ n) = prec + n).
  { apply Zdigits2_unique; [unfold prec; lia |].
    replace (prec + n - 1) with (prec - 1 + n) by lia.
    rewrite !Z.pow_add_r by (unfold prec; lia). nia. }
  unfold round_rel. rewrite Hd. cbn [shr_record_of_loc].
  replace (prec + n - prec) with n by lia.
  destruct (Z.eq_dec n 0) as [-> | Hn0].
  - cbn [SpecFloat.shr fst snd shr_m loc_of_shr_record round_nearest_even].
    rewrite Z.mul_1_r, Hq, Z.sub_diag. reflexivity.
  - assert (0 <= q * 2 ^ n) by nia.
    rewrite (shr_spec (q * 2 ^ n)) by lia. cbn [fst snd shr_m].
    rewrite Z.div_mul by lia.
    rewrite Z.mul_pow2_bits_low by lia.
    rewrite round_nearest_even_down.
    cbn [shr_record_of_loc]. rewrite Hq, Z.sub_diag.
    cbn [SpecFloat.shr fst snd shr_m]. f_equal. lia.
Qed.

(** A mantissa of [prec + n] digits keeps its [prec] leading digits, plus
    one at most; the carry into a new digit raises the exponent again. *)
Lemma round_rel_bound (m n : Z) :
  0 < m -> 0 < n -> Zdigits2 m = prec + n ->
  exists m' d, round_rel m loc_Exact = (m', d) /\
    2 ^ 52 <= m' < 2 ^ 53 /\
    ((d = n /\ (m' = m / 2 ^ n \/ m' = m / 2 ^ n + 1)) \/
     (d = n + 1 /\ m' = 2 ^ 52 /\ m / 2 ^ n = 2 ^ 53 - 1)).
Proof.
  intros Hm0 Hn Hd.
  pose proof (Zdigits2_bounds m Hm0) as Hb. rewrite Hd in Hb.
  assert (Hp : 0 < 2 ^ n) by (apply Z.pow_pos_nonneg; lia).
  replace (prec + n - 1) with (52 + n) in Hb by (unfold prec; lia).
  unfold prec in Hb. rewrite !Z.pow_add_r in Hb by lia.
  assert (Hq : 2 ^ 52 <= m / 2 ^ n < 2 ^ 53).
  { split; [apply Z.div_le_lower_bound | apply Z.div_lt_upper_bound]; lia. }
  unfold round_rel. rewrite Hd. cbn [shr_record_of_loc].
  replace (prec + n - prec) with n by lia.
  rewrite (shr_spec m) by lia. cbn [fst snd shr_m].
  set (mrs := Build_shr_record (m / 2 ^ n) _ _).
  destruct (round_nearest_even_cases (m / 2 ^ n) (loc_of_shr_record mrs))
    as [-> | ->].
  - rewrite (Zdigits2_unique (m / 2 ^ n) prec) by (unfold prec; lia).
    rewrite Z.sub_diag. cbn [SpecFloat.shr shr_record_of_loc fst snd shr_m].
    exists (m / 2 ^ n), (0 + n + 0).
    split; [reflexivity | split; lia].
  - destruct (Z.eq_dec (m / 2 ^ n + 1) (2 ^ 53)) as [He | He].
    + rewrite He. cbn -[Z.pow Z.add].
      exists (2 ^ 52), (0 + n + 1).
      split; [reflexivity | split; lia].
    + rewrite (Zdigits2_unique (m / 2 ^ n + 1) prec) by (unfold prec; lia).
      rewrite Z.sub_diag. cbn [SpecFloat.shr shr_record_of_loc fst snd shr_m].
      exists (m / 2 ^ n + 1), (0 + n + 0).
      split; [reflexivity | split; lia].
Qed.

Lemma iter_xO_pow2 (p d : positive) :
  Z.pos (Pos.iter xO p d) = Z.pos p * 2 ^ Z.pos d.
Proof.
  induction d as [| d IH] using Pos.peano_ind.
  - cbn [Pos.iter]. lia.
  - rewrite Pos.iter_succ, Pos2Z.inj_xO, IH, Pos2Z.inj_succ.
    rewrite Z.pow_succ_r by lia. lia.
Qed.

Lemma Zdigits2_pad (m : Z) :
  0 < m -> Zdigits2 m <= prec ->
  Zdigits2 (m * 2 ^ (prec - Zdigits2 m)) = prec.
Proof.
  intros Hm Hd. pose proof (Zdigits2_bounds m Hm) as Hb.
  pose proof (Zdigits2_nonneg m).
  assert (Zdigits2 m <> 0) by (destruct m; cbn; lia).
  assert (Hp : 0 < 2 ^ (prec - Zdigits2 m)) by (apply Z.pow_pos_nonneg; lia).
  apply Zdigits2_unique; [unfold prec; lia |].
  replace (prec - 1) with (Zdigits2 m - 1 + (prec - Zdigits2 m)) by lia.
  replace (2 ^ prec) with (2 ^ (Zdigits2 m + (prec - Zdigits2 m)))
    by (f_equal; lia).
  rewrite !Z.pow_add_r by lia. nia.
Qed.

(** [binary_normalize] is [normalize_rel] put back at the exponent. *)
Lemma binary_normalize_rel (m e : Z) :
  0 < m -> -968 <= e ->
  binary_normalize prec emax m e false
  = of_mantissa false (fst (normalize_rel m)) (e + snd (normalize_rel m)).
Proof.
  intros Hm He. destruct m as [| p | p]; try lia.
  unfold binary_normalize, binary_round, normalize_rel.
  change (Z.pos (digits2_pos p)) with (Zdigits2 (Z.pos p)).
  pose proof (Zdigits2_bounds (Z.pos p) Hm) as Hb.
  assert (Hd : 0 < Zdigits2 (Z.pos p)) by (cbn; lia).
  set (D := Zdigits2 (Z.pos p)) in *.
  replace (fexp prec emax (D + e)) with (D + e - prec)
    by (unfold fexp, SpecFloat.emin, prec, emax; lia).
  unfold shl_align. replace (D + e - prec - e) with (D - prec) by lia.
  destruct (Z.ltb_spec D prec) as [Hlt | Hge].
  - destruct (D - prec) as [| d | d] eqn:Ed; try lia.
    rewrite binary_round_aux_rel by (unfold prec in *; lia).
    rewrite iter_xO_pow2.
    replace (Z.pos d) with (prec - D) by lia.
    pose proof (round_rel_exact (Z.pos p * 2 ^ (prec - D)) 0) as Hr.
    change (2 ^ 0) with 1 in Hr. rewrite Z.mul_1_r in Hr.
    rewrite Hr; cbn [fst snd].
    + f_equal. lia.
    + assert (0 < 2 ^ (prec - D)) by (apply Z.pow_pos_nonneg; lia). nia.
    + apply Zdigits2_pad; lia.
    + lia.
  - assert (Hs : (let '(mz, ez) :=
                    match D - prec with
                    | Z.neg d => (Pos.iter xO p d, D + e - prec)
                    | _ => (p, e)
                    end in
                  binary_round_aux prec emax false (Z.pos mz) ez loc_Exact)
                 = binary_round_aux prec emax false (Z.pos p) e loc_Exact).
    { destruct (D - prec) eqn:Ed; try reflexivity; lia. }
    rewrite Hs. apply binary_round_aux_rel. lia.
Qed.

(** The mantissa and exponent of [(double) s] for a non-zero
    [uint64_t]: a normal number, at most 2^64. *)
Lemma normalize_rel_u64 (m : Z) :
  0 < m < 2 ^ 64 ->
  exists (m' : positive) (d : Z),
    normalize_rel m = (Z.pos m', d) /\
    Zdigits2 (Z.pos m') = prec /\
    -52 <= d <= 12 /\ (d = 12 -> m' = 4503599627370496%positive).
Proof.
  intros [Hm Hlt]. pose proof (Zdigits2_bounds m Hm) as Hb.
  assert (H1 : 0 < Zdigits2 m) by (destruct m; cbn; lia).
  assert (H64 : Zdigits2 m <= 64).
  { destruct (Z.le_gt_cases (Zdigits2 m) 64) as [|Hgt]; [assumption |].
    assert (2 ^ 64 <= 2 ^ (Zdigits2 m - 1)) by (apply Z.pow_le_mono_r; lia).
    lia. }
  unfold normalize_rel. destruct (Z.ltb_spec (Zdigits2 m) prec) as [Hd | Hd].
  - pose proof (Zdigits2_pad m Hm ltac:(lia)) as Hp.
    assert (0 < 2 ^ (prec - Zdigits2 m)) by (apply Z.pow_pos_nonneg; lia).
    destruct (m * 2 ^ (prec - Zdigits2 m)) as [| q | q] eqn:Eq; try nia.
    exists q, (Zdigits2 m - prec). unfold prec in *.
    repeat split; try assumption; lia.
  - destruct (Z.eq_dec (Zdigits2 m) prec) as [He | Hne].
    + pose proof (round_rel_exact m 0 Hm He ltac:(lia)) as Hr.
      change (2 ^ 0) with 1 in Hr. rewrite Z.mul_1_r in Hr.
      destruct m as [| q | q]; try lia.
      exists q, 0. repeat split; try assumption; lia.
    + destruct (round_rel_bound m (Zdigits2 m - prec) Hm ltac:(lia) ltac:(lia))
        as (m' & d & Hr & Hm' & Hcases).
      destruct m' as [| q | q]; try lia.
      exists q, d. unfold prec in *. split; [assumption |].
      split; [apply Zdigits2_unique; lia |].
      split; [lia |].
      intros ->. destruct Hcases as [[? _] | (_ & Hq & _)]; [lia |].
      apply Pos2Z.inj. exact Hq.
Qed.

Lemma of_mantissa_finite (sx : bool) (m : positive) (e : Z) :
  e <= 971 -> of_mantissa sx (Z.pos m) e = S754_finite sx m e.
Proof.
  intros He. cbn [of_mantissa].
  destruct (Z.leb_spec e (emax - prec)) as [_ | Hgt];
    [reflexivity | unfold emax, prec in Hgt; lia].
Qed.

Lemma of_u64_zero : of_u64 0 = zero.
Proof. reflexivity. Qed.

Lemma of_u64_max : of_u64 U64.UINT64_MAX = two_pow_64.
Proof. vm_compute. reflexivity. Qed.

Lemma of_u64_pos (s : N) :
  (0 < s < 2 ^ 64)%N ->
  exists (m : positive) (e : Z),
    of_u64 s = S754_finite false m e /\
    normalize_rel (Z.of_N s) = (Z.pos m, e) /\
    Zdigits2 (Z.pos m) = prec /\
    -52 <= e <= 12 /\ (e = 12 -> m = 4503599627370496%positive).
Proof.
  intros Hs.
  assert (Hz : 0 < Z.of_N s < 2 ^ 64).
  { change (2 ^ 64) with (Z.of_N (2 ^ 64)). lia. }
  destruct (normalize_rel_u64 _ Hz) as (m & e & Hn & Hd & He & Hm).
  exists m, e. repeat split; try assumption; try lia.
  unfold of_u64. rewrite binary_normalize_rel by lia.
  rewrite Hn. cbn [fst snd of_mantissa].
  destruct (Z.leb_spec (0 + e) (emax - prec)) as [_ | Hgt];
    [reflexivity | unfold emax, prec in Hgt; lia].
Qed.

Lemma div_eucl_exact (a b : Z) : 0 < b -> Z.div_eucl (a * b) b = (a, 0).
Proof.
  intros Hb.
  pose proof (Z.div_mul a b ltac:(lia)) as Hq.
  pose proof (Z.mod_mul a b ltac:(lia)) as Hr.
  unfold Z.div, Z.modulo in *.
  destruct (Z.div_eucl (a * b) b). congruence.
Qed.

(** Dividing a normal number by 2^64 lowers its exponent by 64. *)
Lemma div_two_pow_64 (m : positive) (e : Z) :
  Zdigits2 (Z.pos m) = prec -> -900 <= e <= 1000 ->
  div (S754_finite false m e) two_pow_64 = S754_finite false m (e - 64).
Proof.
  intros Hd He.
  assert (Hc : SFdiv_core_binary prec emax (Z.pos m) e 4503599627370496 12
               = (Z.pos m * 2 ^ 1, e - 65, loc_Exact)).
  { unfold SFdiv_core_binary. rewrite Hd.
    change (Zdigits2 4503599627370496) with 53.
    replace (Z.min (fexp prec emax (prec + e - (53 + 12))) (e - 12))
      with (e - 65) by (unfold fexp, SpecFloat.emin, prec, emax; lia).
    replace (e - 12 - (e - 65)) with 53 by lia. cbv iota beta.
    rewrite Z.shiftl_mul_pow2 by lia.
    replace (Z.pos m * 2 ^ 53) with (Z.pos m * 2 ^ 1 * 4503599627370496)
      by lia.
    rewrite div_eucl_exact by lia. reflexivity. }
  unfold div, SFdiv, two_pow_64. rewrite Hc. cbn [xorb].
  rewrite binary_round_aux_rel by lia.
  rewrite round_rel_exact by (assumption || lia). cbn [fst snd of_mantissa].
  destruct (Z.leb_spec (e - 65 + 1) (emax - prec)) as [_ | Hgt];
    [f_equal; lia | unfold emax, prec in Hgt; lia].
Qed.

(** Multiplying a normal number by a power of two written as
    2^52 * 2^k raises its exponent by [k + 52]. *)
Lemma mul_pow2 (m : positive) (e k : Z) :
  Zdigits2 (Z.pos m) = prec -> -1021 <= e + k -> e + k + 52 <= 971 ->
  mul (S754_finite false m e) (S754_finite false 4503599627370496 k)
  = S754_finite false m (e + k + 52).
Proof.
  intros Hd Hlo Hhi. unfold mul, SFmul. cbn [xorb].
  rewrite binary_round_aux_rel by lia.
  rewrite Pos2Z.inj_mul. change (Z.pos 4503599627370496) with (2 ^ 52).
  rewrite round_rel_exact by (assumption || lia). cbn [fst snd of_mantissa].
  destruct (Z.leb_spec (e + k + 52) (emax - prec)) as [_ | Hgt];
    [reflexivity | unfold emax, prec in Hgt; lia].
Qed.

Lemma leb_zero_finite (m : positive) (e : Z) :
  leb zero (S754_finite false m e) = true.
Proof. reflexivity. Qed.

Lemma ltb_one_small (m : positive) (e : Z) :
  e < -52 -> ltb (S754_finite false m e) one = true.
Proof.
  intros He. unfold ltb, SFltb, one, SFcompare.
  destruct (Z.compare_spec e (-52)); reflexivity || lia.
Qed.

Lemma leb_one_small (m : positive) (e : Z) :
  e < -52 \/ (e = -52 /\ m = 4503599627370496%positive) ->
  leb (S754_finite false m e) one = true.
Proof.
  intros [He | [-> ->]]; [| reflexivity].
  unfold leb, SFleb, one, SFcompare.
  destruct (Z.compare_spec e (-52)); reflexivity || lia.
Qed.
(** Round bit clear: the discarded digits are below one half. *)
Lemma round_rel_down (m n : Z) :
  0 < m -> 0 < n -> Zdigits2 m = prec + n ->
  Z.testbit m (n - 1) = false ->
  round_rel m loc_Exact = (m / 2 ^ n, n).
Proof.
  intros Hm0 Hn Hd Hbit.
  pose proof (Zdigits2_bounds m Hm0) as Hb. rewrite Hd in Hb.
  assert (Hp : 0 < 2 ^ n) by (apply Z.pow_pos_nonneg; lia).
  replace (prec + n - 1) with (52 + n) in Hb by (unfold prec; lia).
  unfold prec in Hb. rewrite !Z.pow_add_r in Hb by lia.
  assert (Hq : 2 ^ 52 <= m / 2 ^ n < 2 ^ 53).
  { split; [apply Z.div_le_lower_bound | apply Z.div_lt_upper_bound]; lia. }
  unfold round_rel. rewrite Hd. cbn [shr_record_of_loc].
  replace (prec + n - prec) with n by lia.
  rewrite (shr_spec m) by lia. cbn [fst snd shr_m].
  rewrite Hbit, round_nearest_even_down.
  rewrite (Zdigits2_unique (m / 2 ^ n) prec) by (unfold prec; lia).
  rewrite Z.sub_diag. cbn [SpecFloat.shr shr_record_of_loc fst snd shr_m].
  f_equal. lia.
Qed.

(** Round bit set on the largest mantissa: the carry gives 2^52 one
    exponent higher. *)
Lemma round_rel_carry (m n : Z) :
  0 < m -> 0 < n -> Zdigits2 m = prec + n ->
  Z.testbit m (n - 1) = true -> m / 2 ^ n = 2 ^ 53 - 1 ->
  round_rel m loc_Exact = (2 ^ 52, n + 1).
Proof.
  intros Hm0 Hn Hd Hbit Hq.
  unfold round_rel. rewrite Hd. cbn [shr_record_of_loc].
  replace (prec + n - prec) with n by lia.
  rewrite (shr_spec m) by lia. cbn [fst snd shr_m].
  rewrite Hbit, Hq.
  assert (Hr : forall s, round_nearest_even (2 ^ 53 - 1)
                 (loc_of_shr_record (Build_shr_record (2 ^ 53 - 1) true s))
               = 2 ^ 53) by (intros []; reflexivity).
  rewrite Hr. cbn -[Z.pow Z.add]. f_equal; lia.
Qed.

(** [(double) s] below 2^64 - 1024 stays below 2^64. *)
Lemma of_u64_below (s : N) :
  (0 < s < 2 ^ 64 - 1024)%N ->
  exists (m : positive) (e : Z),
    of_u64 s = S754_finite false m e /\
    Zdigits2 (Z.pos m) = prec /\ -52 <= e <= 11.
Proof.
  intros Hs.
  destruct (of_u64_pos s ltac:(lia)) as (m & e & Hof & Hn & Hd & He & _).
  exists m, e. split; [assumption |]. split; [assumption |].
  destruct (Z.eq_dec e 12) as [-> | Hne]; [exfalso | lia].
  assert (Hz : 0 < Z.of_N s < 2 ^ 64 - 1024).
  { change (2 ^ 64 - 1024) with (Z.of_N (2 ^ 64 - 1024)). lia. }
  set (z := Z.of_N s) in *.
  pose proof (Zdigits2_bounds z ltac:(lia)) as Hb.
  assert (H64 : Zdigits2 z <= 64).
  { destruct (Z.le_gt_cases (Zdigits2 z) 64) as [|Hgt]; [assumption |].
    assert (2 ^ 64 <= 2 ^ (Zdigits2 z - 1)) by (apply Z.pow_le_mono_r; lia).
    lia. }
  unfold normalize_rel in Hn.
  destruct (Z.ltb_spec (Zdigits2 z) prec) as [Hlt | Hge].
  - injection Hn as _ Hn. unfold prec in *. lia.
  - destruct (Z.eq_dec (Zdigits2 z) prec) as [Heq | Hneq].
    + pose proof (round_rel_exact z 0 ltac:(lia) Heq ltac:(lia)) as Hr.
      change (2 ^ 0) with 1 in Hr. rewrite Z.mul_1_r in Hr. congruence.
    + destruct (round_rel_bound z (Zdigits2 z - prec) ltac:(lia) ltac:(lia)
                  ltac:(lia)) as (m' & d & Hr & _ & Hcases).
      rewrite Hr in Hn. injection Hn as _ ->.
      destruct Hcases as [[Hd12 _] | (Hd12 & _ & Hq)];
        [unfold prec in *; lia |].
      assert (HD : Zdigits2 z = 64) by (unfold prec in *; lia).
      rewrite HD in *. change (64 - prec) with 11 in *.
      assert (Hbit : Z.testbit z (11 - 1) = false).
      { change (11 - 1) with 10. apply Z.testbit_false; [lia |].
        pose proof (Z.div_mod z (2 ^ 11) ltac:(lia)) as Hdm.
        pose proof (Z.mod_pos_bound z (2 ^ 11) ltac:(lia)) as Hmb.
        rewrite Hq in Hdm.
        replace z with ((2 ^ 54 - 2) * 2 ^ 10 + z mod 2 ^ 11) by lia.
        rewrite Z.div_add_l by lia.
        rewrite (Z.div_small (z mod 2 ^ 11)) by lia.
        reflexivity. }
      rewrite (round_rel_down z 11 ltac:(lia) ltac:(lia) HD Hbit) in Hr.
      injection Hr as _ Hr. lia.
Qed.

(** [(double) s] from 2^64 - 1024 on is rounded up to 2^64. *)
Lemma of_u64_top (s : N) :
  (2 ^ 64 - 1024 <= s < 2 ^ 64)%N -> of_u64 s = two_pow_64.
Proof.
  intros Hs.
  assert (Hz : 2 ^ 64 - 1024 <= Z.of_N s < 2 ^ 64).
  { change (2 ^ 64 - 1024) with (Z.of_N (2 ^ 64 - 1024)).
    change (2 ^ 64) with (Z.of_N (2 ^ 64)). lia. }
  unfold of_u64. rewrite binary_normalize_rel by lia.
  set (z := Z.of_N s) in *.
  assert (HD : Zdigits2 z = prec + 11)
    by (apply Zdigits2_unique; unfold prec; lia).
  pose proof (Z.div_mod z (2 ^ 11) ltac:(lia)) as Hdm.
  pose proof (Z.mod_pos_bound z (2 ^ 11) ltac:(lia)) as Hmb.
  assert (Hq : z / 2 ^ 11 = 2 ^ 53 - 1).
  { symmetry. apply (Z.div_unique z (2 ^ 11) _ (z - (2 ^ 53 - 1) * 2 ^ 11));
      lia. }
  assert (Hbit : Z.testbit z (11 - 1) = true).
  { change (11 - 1) with 10. apply Z.testbit_true; [lia |].
    rewrite Hq in Hdm.
    replace z with ((2 ^ 54 - 2) * 2 ^ 10 + (z mod 2 ^ 11)) by lia.
    rewrite Z.div_add_l by lia.
    rewrite <- (Z.div_unique (z mod 2 ^ 11) (2 ^ 10) 1
                  (z mod 2 ^ 11 - 2 ^ 10)) by lia.
    reflexivity. }
  unfold normalize_rel. rewrite HD. change (prec + 11 <? prec) with false.
  rewrite (round_rel_carry z 11) by (assumption || lia).
  reflexivity.
Qed.
End B64_facts.

(** * Facts about the cache operations *)

Module QC_facts.
Import U64 B64 QC B64_facts.
Local Open Scope N_scope.

(** ** The store loops *)

(** A loop bounded by [b] is the fold over [i, b), given fuel for it. *)
Lemma for_while_fold {A : Type} (b : N) (cond : N -> bool)
    (body : N -> A -> A) (fuel : nat) (i : N) (a : A) :
  (forall j, cond j = (j <? b)) -> (N.to_nat (b - i) <= fuel)%nat ->
  for_while fuel cond body i a
  = fold_left (fun acc k => body (N.of_nat k) acc)
      (seq (N.to_nat i) (N.to_nat (b - i))) a.
Proof.
  intros Hcond. revert i a.
  induction fuel as [| fuel IH]; intros i a Hfuel.
  - replace (N.to_nat (b - i)) with 0%nat by lia. reflexivity.
  - cbn [for_while]. rewrite Hcond.
    destruct (N.ltb_spec i b) as [Hlt | Hge].
    + rewrite IH by lia.
      replace (N.to_nat (b - i)) with (S (N.to_nat (b - N.succ i))) by lia.
      cbn [seq fold_left]. rewrite N2Nat.id, N2Nat.inj_succ. reflexivity.
    + replace (N.to_nat (b - i)) with 0%nat by lia. reflexivity.
Qed.

(** The loop of [quantum_cache_preload] runs over [0, min count size);
    fuel beyond [min count size] changes nothing. *)
Lemma preload_loop_upto {A : Type} (count sz : N) (body : N -> A -> A)
    (fuel : nat) (a : A) :
  (N.to_nat (N.min count sz) <= fuel)%nat ->
  for_while fuel (fun i => (i <? count) && (i <? sz)) body 0 a
  = for_upto (N.min count sz) body a.
Proof.
  intros Hfuel. unfold for_upto.
  rewrite (for_while_fold (N.min count sz)).
  - rewrite N.sub_0_r. reflexivity.
  - intros j.
    destruct (N.ltb_spec j count), (N.ltb_spec j sz),
      (N.ltb_spec j (N.min count sz)); cbn; try reflexivity; lia.
  - rewrite N.sub_0_r. exact Hfuel.
Qed.

Section StoreLoop.
Variable f : N -> N.

Let step (acc : list N) (i : nat) : list N :=
  store (N.of_nat i) (f (N.of_nat i)) acc.

Lemma store_loop_length (k : nat) (l : list N) :
  length (fold_left step (seq 0 k) l) = length l.
Proof.
  induction k as [| k IH]; [reflexivity |].
  rewrite seq_S, fold_left_app. cbn [fold_left Nat.add].
  unfold step at 1, store. rewrite length_insert. exact IH.
Qed.

Lemma store_loop_lookup (k : nat) (l : list N) (j : nat) :
  fold_left step (seq 0 k) l !! j
  = if decide (j < k /\ j < length l)%nat then Some (f (N.of_nat j))
    else l !! j.
Proof.
  induction k as [| k IH].
  - cbn. rewrite decide_False by lia. reflexivity.
  - rewrite seq_S, fold_left_app. cbn [fold_left Nat.add].
    unfold step at 1, store. rewrite Nat2N.id.
    destruct (decide (j = k)) as [-> | Hne].
    + destruct (decide (k < length l)%nat) as [Hlt | Hge].
      * rewrite list_lookup_insert_eq by (rewrite store_loop_length; lia).
        rewrite decide_True by lia. reflexivity.
      * rewrite list_insert_ge by (rewrite store_loop_length; lia).
        rewrite IH, !decide_False by lia. reflexivity.
    + rewrite list_lookup_insert_ne by congruence. rewrite IH.
      repeat case_decide; try reflexivity; lia.
Qed.

Lemma for_upto_store_length (n : N) (l : list N) :
  length (for_upto n (fun i a => store i (f i) a) l) = length l.
Proof. apply store_loop_length. Qed.

Lemma for_upto_store_lookup (n : N) (l : list N) (i : N) :
  for_upto n (fun i a => store i (f i) a) l !! N.to_nat i
  = if decide (i < n /\ (N.to_nat i < length l)%nat) then Some (f i)
    else l !! N.to_nat i.
Proof.
  unfold for_upto.
  change (fun acc j => store (N.of_nat j) (f (N.of_nat j)) acc) with step.
  rewrite store_loop_lookup, N2Nat.id.
  repeat case_decide; try reflexivity; lia.
Qed.

Lemma for_upto_store_Forall (P : N -> Prop) (n : N) (l : list N) :
  (forall i, P (f i)) -> Forall P l ->
  Forall P (for_upto n (fun i a => store i (f i) a) l).
Proof.
  intros Hf Hl. rewrite Forall_lookup. intros j x Hx.
  unfold for_upto in Hx.
  change (fun acc j => store (N.of_nat j) (f (N.of_nat j)) acc)
    with step in Hx.
  rewrite store_loop_lookup in Hx.
  case_decide.
  - injection Hx as <-. apply Hf.
  - rewrite Forall_lookup in Hl. exact (Hl j x Hx).
Qed.
End StoreLoop.
(** The scenario of the specification: populate with key "abc" and count
    5 on an absent cache creates capacity 5 and fills the 5 slots. *)
Example preload_abc_on_absent :
  exists c,
    quantum_cache_preload Samples.busy_world (Some Samples.abc_key) 5 None
    = (0%Z, Some c) /\
    size c = 5 /\
    seeds c
    = map (fun i => spec_mix (i * 1000 + 1) 5 i 6382179) [0; 1; 2; 3; 4].
Proof. eexists. vm_compute. repeat split. Qed.

(** ** Seeds are 64-bit values *)

Lemma to_u64_lt (x : double) : to_u64 x < modulus.
Proof.
  unfold to_u64, modulus. destruct x as [| | | [] m e]; try reflexivity.
  cbv zeta. destruct (Z.ltb_spec (Z.shiftl (Z.pos m) e) (2 ^ 64)%Z);
    [| reflexivity].
  change (2 ^ 64) with (Z.to_N (2 ^ 64)%Z). lia.
Qed.

Lemma initial_seed_lt (x : Z) : initial_seed x < modulus.
Proof. apply to_u64_lt. Qed.

Lemma land_max (x : N) : N.land x UINT64_MAX = x mod 2 ^ 64.
Proof. change UINT64_MAX with (N.ones 64). apply N.land_ones. Qed.

Lemma mix_lt (ts : Z * Z) (i K : N) : mix ts i K < modulus.
Proof.
  unfold mix. rewrite land_max. apply N.mod_lt. discriminate.
Qed.

(** ** The mixing of the code is the mixing of the specification *)

Lemma lcg_step (E a c : N) :
  N.land (U64.add (U64.mul E a) c) UINT64_MAX = (E * a + c) mod 2 ^ 64.
Proof.
  rewrite land_max. unfold U64.add, U64.mul, wrap, modulus.
  rewrite N.Div0.mod_mod, N.Div0.add_mod_idemp_l. reflexivity.
Qed.

Lemma mix_spec (ts : Z * Z) (i K : N) :
  mix ts i K = spec_mix (U64.of_Z (snd ts)) (U64.of_Z (fst ts)) i K.
Proof.
  unfold mix, spec_mix. rewrite !lcg_step. unfold U64.shiftr.
  rewrite N.shiftr_div_pow2. reflexivity.
Qed.

Lemma strlen_no_nul (key : list byte) :
  ~ In x00 key -> strlen key = length key.
Proof.
  induction key as [| b key IH]; [reflexivity |]. intros Hnin.
  cbn [strlen length].
  destruct (Byte.eqb b x00) eqn:Eb.
  - apply Byte.byte_dec_bl in Eb. subst b. exfalso. apply Hnin. left.
    reflexivity.
  - f_equal. apply IH. intros Hin. apply Hnin. right. exact Hin.
Qed.

Lemma fold_key_spec (key : list byte) :
  ~ In x00 key -> fold_key key = spec_key_fold key.
Proof.
  intros Hnin. unfold fold_key, spec_key_fold.
  rewrite strlen_no_nul, firstn_all by assumption.
  generalize 0. induction key as [| b key IH]; intros acc; [reflexivity |].
  cbn [fold_left]. rewrite IH by (intros Hin; apply Hnin; right; exact Hin).
  unfold U64.shiftl, wrap, modulus. rewrite N.shiftl_mul_pow2. reflexivity.
Qed.

(** ** The seeds [quantum_cache_init] draws *)

Lemma shiftl_pad (k D : Z) :
  (0 < D <= 48)%Z ->
  Z.shiftl (k * 2 ^ (53 - D)) (D - 37) = (k * 2 ^ 16)%Z.
Proof.
  intros HD. destruct (Z.le_gt_cases 37%Z D) as [Hge | Hlt].
  - rewrite Z.shiftl_mul_pow2 by lia.
    rewrite <- Z.mul_assoc, <- Z.pow_add_r by lia. do 2 f_equal. lia.
  - rewrite Z.shiftl_div_pow2 by lia.
    replace (53 - D)%Z with (16 + - (D - 37))%Z by lia.
    rewrite Z.pow_add_r, Z.mul_assoc by lia.
    apply Z.div_mul. apply Z.pow_nonzero; lia.
Qed.

(** [drand48] returns [k / 2^48]; times 2^64 and truncated this is
    [k * 2^16], exactly. *)
Lemma initial_seed_spec (x : Z) :
  initial_seed x = Z.to_N ((x mod 2 ^ 48) * 2 ^ 16).
Proof.
  unfold initial_seed, drand48_value. rewrite of_u64_max.
  pose proof (Z.mod_pos_bound x (2 ^ 48)%Z ltac:(lia)) as Hk.
  set (k := (x mod 2 ^ 48)%Z) in *.
  destruct (Z.eq_dec k 0%Z) as [-> | Hk0]; [reflexivity |].
  rewrite binary_normalize_rel by lia.
  pose proof (Zdigits2_bounds k ltac:(lia)) as Hb.
  assert (H1 : (0 < Zdigits2 k)%Z) by (destruct k; cbn; lia).
  assert (H48 : (Zdigits2 k <= 48)%Z).
  { destruct (Z.le_gt_cases (Zdigits2 k) 48%Z) as [|Hgt]; [assumption |].
    assert (2 ^ 48 <= 2 ^ (Zdigits2 k - 1))%Z
      by (apply Z.pow_le_mono_r; lia).
    lia. }
  unfold normalize_rel.
  destruct (Z.ltb_spec (Zdigits2 k) prec) as [_ | Hge];
    [| unfold prec in Hge; lia].
  cbn [fst snd].
  pose proof (Zdigits2_pad k ltac:(lia) ltac:(unfold prec; lia)) as Hpad.
  assert (Hpos : (0 < 2 ^ (prec - Zdigits2 k))%Z)
    by (apply Z.pow_pos_nonneg; unfold prec; lia).
  destruct (k * 2 ^ (prec - Zdigits2 k))%Z as [| q | q] eqn:Eq; try nia.
  cbn [of_mantissa].
  destruct (Z.leb_spec (-48 + (Zdigits2 k - prec))%Z (emax - prec)%Z)
    as [_ | Hgt]; [| unfold emax, prec in Hgt; lia].
  unfold two_pow_64. rewrite mul_pow2 by (assumption || unfold prec; lia).
  unfold to_u64. cbv zeta. rewrite <- Eq.
  replace (-48 + (Zdigits2 k - prec) + 12 + 52)%Z with (Zdigits2 k - 37)%Z
    by (unfold prec; lia).
  unfold prec. rewrite shiftl_pad by lia.
  destruct (Z.ltb_spec (k * 2 ^ 16)%Z (2 ^ 64)%Z); [reflexivity | lia].
Qed.

Lemma initial_seed_below (x : Z) : initial_seed x < 2 ^ 64 - 1024.
Proof.
  rewrite initial_seed_spec.
  pose proof (Z.mod_pos_bound x (2 ^ 48)%Z ltac:(lia)).
  change (2 ^ 64 - 1024) with (Z.to_N (2 ^ 64 - 1024)%Z). lia.
Qed.
(** ** The lookup *)

Lemma get_random_in_range (c : quantum_cache) (i : N) :
  i < size c ->
  quantum_cache_get_random i (Some c)
  = B64.div (of_u64 (load i (seeds c))) two_pow_64.
Proof.
  intros Hi. unfold quantum_cache_get_random.
  destruct (N.leb_spec (size c) i); [lia |].
  rewrite of_u64_max. reflexivity.
Qed.

Lemma get_random_fallback (g : global) (i : N) :
  (g = None \/ exists c, g = Some c /\ size c <= i) ->
  quantum_cache_get_random i g = half.
Proof.
  intros [-> | (c & -> & Hi)]; [reflexivity |].
  unfold quantum_cache_get_random.
  destruct (N.leb_spec (size c) i); [reflexivity | lia].
Qed.

Lemma load_lookup (i : N) (l : list N) (x : N) :
  l !! N.to_nat i = Some x -> load i l = x.
Proof. intros H. unfold load. rewrite nth_lookup, H. reflexivity. Qed.

Lemma load_lt (c : quantum_cache) (i : N) :
  well_formed (Some c) -> i < size c -> load i (seeds c) < modulus.
Proof.
  intros (_ & Hlen & Hall) Hi.
  destruct (lookup_lt_is_Some_2 (seeds c) (N.to_nat i) ltac:(lia))
    as [x Hx].
  rewrite (load_lookup _ _ _ Hx).
  rewrite Forall_lookup in Hall. exact (Hall _ _ Hx).
Qed.

(** The quotient of a seed by 2^64: correctly rounded, in [0, 1], and
    below 1 exactly for the seeds below 2^64 - 1024. *)
Lemma seed_ratio (s : N) :
  s < modulus ->
  B64.div (of_u64 s) two_pow_64 = ratio_pow2 s 64 /\
  in_unit_closed (B64.div (of_u64 s) two_pow_64) = true /\
  (in_unit_half_open (B64.div (of_u64 s) two_pow_64) = true
   <-> s < 2 ^ 64 - 1024) /\
  (B64.div (of_u64 s) two_pow_64 = zero \/
   exists (m : positive) (e : Z),
     B64.div (of_u64 s) two_pow_64 = S754_finite false m e /\
     Zdigits2 (Z.pos m) = prec /\ (-116 <= e <= -52)%Z).
Proof.
  unfold modulus. intros Hs.
  destruct (N.eq_dec s 0) as [-> | Hs0].
  { repeat split; try reflexivity; try (left; reflexivity). }
  destruct (of_u64_pos s ltac:(lia)) as (m & e & Hof & Hn & Hd & He & Hm).
  rewrite Hof, div_two_pow_64 by (assumption || lia).
  split; [| split; [| split]].
  - unfold ratio_pow2. rewrite binary_normalize_rel by lia.
    rewrite Hn. cbn [fst snd].
    rewrite of_mantissa_finite by lia. f_equal. lia.
  - unfold in_unit_closed. rewrite leb_zero_finite, leb_one_small;
      [reflexivity |].
    destruct (Z.eq_dec e 12%Z) as [He12 | Hne]; [right | left; lia].
    split; [lia | auto].
  - unfold in_unit_half_open. rewrite leb_zero_finite. cbn [andb].
    destruct (N.lt_ge_cases s (2 ^ 64 - 1024)) as [Hlt | Hge].
    + destruct (of_u64_below s ltac:(lia)) as (m' & e' & Hof' & _ & He').
      rewrite Hof in Hof'. injection Hof' as -> ->.
      rewrite ltb_one_small by lia. tauto.
    + pose proof (of_u64_top s ltac:(lia)) as Htop.
      rewrite Hof in Htop. unfold two_pow_64 in Htop.
      injection Htop as -> ->. split; [discriminate | lia].
  - right. exists m, (e - 64)%Z. repeat split; try assumption; lia.
Qed.

(** Doubling and then scaling by [M_PI] is scaling by the double 2 pi. *)
Lemma mul_two_pi (v : double) :
  (v = zero \/
   exists (m : positive) (e : Z),
     v = S754_finite false m e /\
     Zdigits2 (Z.pos m) = prec /\ (-900 <= e <= 900)%Z) ->
  B64.mul (B64.mul v two) M_PI = B64.mul v two_pi.
Proof.
  intros [-> | (m & e & -> & Hd & He)]; [reflexivity |].
  unfold two. rewrite mul_pow2 by (assumption || lia).
  unfold B64.mul, SFmul, M_PI, two_pi. f_equal. lia.
Qed.

(** ** The rotation *)

Lemma lxor_u64 (a b : N) :
  a < modulus -> b < modulus -> N.lxor a b < modulus.
Proof.
  unfold modulus. intros Ha Hb.
  destruct (N.eq_dec (N.lxor a b) 0) as [-> | Hx]; [reflexivity |].
  apply N.log2_lt_pow2; [lia |].
  pose proof (N.log2_lxor a b) as Hl.
  assert (N.log2 a < 64).
  { destruct (N.eq_dec a 0) as [-> | ?]; [reflexivity |].
    apply N.log2_lt_pow2; lia. }
  assert (N.log2 b < 64).
  { destruct (N.eq_dec b 0) as [-> | ?]; [reflexivity |].
    apply N.log2_lt_pow2; lia. }
  lia.
Qed.

Lemma lor_halves (h l : N) :
  l < 2 ^ 32 -> N.lor (h * 2 ^ 32) l = h * 2 ^ 32 + l.
Proof.
  intros Hl.
  assert (Hland : N.land (h * 2 ^ 32) l = 0).
  { apply N.bits_inj. intros n. rewrite N.land_spec, N.bits_0.
    destruct (N.lt_ge_cases n 32) as [Hn | Hn].
    - rewrite N.mul_pow2_bits_low by assumption. reflexivity.
    - rewrite <- (N.mod_small l (2 ^ 32)) by assumption.
      rewrite N.mod_pow2_bits_high by assumption.
      apply andb_false_r. }
  rewrite N.add_nocarry_lxor by assumption.
  symmetry. apply N.lxor_lor. assumption.
Qed.

(** On a 64-bit word, [(x << 32) | (x >> 32)] swaps the halves. *)
Lemma rotate_swap_halves (x : N) :
  x < modulus ->
  N.lor (U64.shiftl x 32) (U64.shiftr x 32) = swap_halves x.
Proof.
  unfold modulus. intros Hx.
  unfold U64.shiftl, U64.shiftr, wrap, modulus, swap_halves.
  rewrite N.shiftl_mul_pow2, N.shiftr_div_pow2.
  change (2 ^ 64) with (2 ^ 32 * 2 ^ 32).
  rewrite N.Div0.mul_mod_distr_r.
  apply lor_halves.
  apply N.Div0.div_lt_upper_bound. exact Hx.
Qed.
(** ** What the state-changing calls return *)

(** The store [quantum_cache_init] builds for capacity [n] in world [w]. *)
Lemma init_cases (w : world) (n : N) (g : global) :
  ((n = 0 \/ 10000000 < n) /\ quantum_cache_init w n g = ((-1)%Z, g)) \/
  (1 <= n <= 10000000 /\
   (quantum_cache_init w n g = ((-2)%Z, None) \/
    quantum_cache_init w n g = ((-3)%Z, None) \/
    quantum_cache_init w n g
    = (0%Z,
       Some {| seeds :=
                 for_upto n
                   (fun i a => store i (initial_seed (drand48 w i)) a)
                   (repeat 0 (N.to_nat n));
               size := n; index := 0 |}))).
Proof.
  unfold quantum_cache_init.
  destruct (N.eqb_spec n 0) as [-> | Hn0]; [left; auto |].
  destruct (N.ltb_spec 10000000 n) as [Hbig | Hok]; [left; auto |].
  right. split; [lia |]. cbn [orb].
  destruct (malloc_cache_ok w); [| auto].
  destruct (malloc_seeds_ok w); [| auto].
  destruct (rwlock_init_ok w); auto.
Qed.

Lemma init_well_formed (w : world) (n : N) (g : global) :
  well_formed g -> well_formed (snd (quantum_cache_init w n g)).
Proof.
  intros Hg.
  destruct (init_cases w n g) as [[_ ->] | [Hn [-> | [-> | ->]]]];
    try exact Hg; try exact I.
  cbn [snd well_formed seeds size]. split; [lia |]. split.
  - rewrite for_upto_store_length, repeat_length. reflexivity.
  - apply for_upto_store_Forall.
    + intros i. apply initial_seed_lt.
    + apply Forall_forall. intros x Hx. apply list_elem_of_In in Hx.
      apply repeat_spec in Hx. subst x. reflexivity.
Qed.

(** [quantum_cache_preload] refuses its arguments, or fails to create
    the missing cache, or rewrites the first [min count size] seeds of the
    cache [c0] that was present or has just been created. *)
Lemma preload_cases (w : world) (k : option (list byte)) (n : N)
    (g : global) :
  quantum_cache_preload w k n g = ((-1)%Z, g) \/
  (g = None /\ exists ret, ret <> 0%Z /\
     quantum_cache_preload w k n g = (ret, None)) \/
  exists key c0, k = Some key /\ 1 <= n <= 10000000 /\
    (g = Some c0 \/
     (g = None /\ quantum_cache_init w n None = (0%Z, Some c0))) /\
    quantum_cache_preload w k n g
    = (0%Z,
       Some {| seeds :=
                 for_upto (N.min n (size c0))
                   (fun i a =>
                      store i (mix (clock_gettime w i) i (fold_key key)) a)
                   (seeds c0);
               size := size c0; index := index c0 |}).
Proof.
  unfold quantum_cache_preload. destruct k as [key |]; [| left; reflexivity].
  destruct (N.eqb_spec n 0) as [-> | Hn0]; [left; reflexivity |].
  destruct (N.ltb_spec 10000000 n) as [Hbig | Hok]; [left; reflexivity |].
  cbn [orb]. right. destruct g as [c |].
  - right. exists key, c. split; [reflexivity |]. split; [lia |].
    split; [left; reflexivity |]. cbn [negb Z.eqb].
    rewrite preload_loop_upto by lia. reflexivity.
  - destruct (init_cases w n None) as [[_ He] | [_ [He | [He | He]]]];
      rewrite He; cbn [negb Z.eqb].
    + left. split; [reflexivity |]. exists (-1)%Z. split; [lia | reflexivity].
    + left. split; [reflexivity |]. exists (-2)%Z. split; [lia | reflexivity].
    + left. split; [reflexivity |]. exists (-3)%Z. split; [lia | reflexivity].
    + right. eexists key, _. split; [reflexivity |]. split; [lia |].
      split; [right; split; reflexivity |].
      rewrite preload_loop_upto by (cbn [size]; lia). reflexivity.
Qed.

Lemma preload_present (w : world) (k : option (list byte)) (n : N)
    (c : quantum_cache) :
  quantum_cache_preload w k n (Some c) = ((-1)%Z, Some c) \/
  exists key, k = Some key /\ 1 <= n <= 10000000 /\
    quantum_cache_preload w k n (Some c)
    = (0%Z,
       Some {| seeds :=
                 for_upto (N.min n (size c))
                   (fun i a =>
                      store i (mix (clock_gettime w i) i (fold_key key)) a)
                   (seeds c);
               size := size c; index := index c |}).
Proof.
  destruct (preload_cases w k n (Some c))
    as [He | [[? _] | (key & c0 & Hk & Hn & [[= <-] | [? _]] & He)]];
    try discriminate; [left; exact He |].
  right. exists key. auto.
Qed.

Lemma preload_well_formed (w : world) (k : option (list byte)) (n : N)
    (g : global) :
  well_formed g -> well_formed (snd (quantum_cache_preload w k n g)).
Proof.
  intros Hg.
  destruct (preload_cases w k n g)
    as [-> | [(_ & ret & _ & ->) | (key & c0 & _ & _ & Hc0 & ->)]];
    [exact Hg | exact I |].
  assert (Hwf : well_formed (Some c0)).
  { destruct Hc0 as [-> | [_ Hinit]]; [exact Hg |].
    pose proof (init_well_formed w n None I) as Hi.
    rewrite Hinit in Hi. exact Hi. }
  destruct Hwf as (Hsz & Hlen & Hall).
  cbn [snd well_formed seeds size]. split; [assumption |]. split.
  - rewrite for_upto_store_length. assumption.
  - apply for_upto_store_Forall; [| assumption].
    intros i. apply mix_lt.
Qed.

Lemma run_well_formed (c : call) (g : global) :
  well_formed g -> well_formed (run c g).
Proof.
  intros Hg. destruct c; cbn [run]; try assumption.
  - apply init_well_formed. assumption.
  - destruct g; exact I.
  - apply preload_well_formed. assumption.
Qed.

Lemma reachable_well_formed (g : global) :
  reachable g -> well_formed g.
Proof.
  induction 1 as [| c g _ IH]; [exact I | apply run_well_formed, IH].
Qed.

(** ** The cursor *)

Lemma init_cursor (w : world) (n : N) (g : global) (c : quantum_cache) :
  (forall c0, g = Some c0 -> index c0 = 0) ->
  snd (quantum_cache_init w n g) = Some c -> index c = 0.
Proof.
  intros Hg.
  destruct (init_cases w n g) as [[_ ->] | [_ [-> | [-> | ->]]]];
    cbn [snd]; try discriminate.
  - apply Hg.
  - intros [= <-]. reflexivity.
Qed.

Lemma preload_cursor (w : world) (k : option (list byte)) (n : N)
    (g : global) (c : quantum_cache) :
  (forall c0, g = Some c0 -> index c0 = 0) ->
  snd (quantum_cache_preload w k n g) = Some c -> index c = 0.
Proof.
  intros Hg.
  destruct (preload_cases w k n g)
    as [-> | [(_ & ret & _ & ->) | (key & c0 & _ & _ & Hc0 & ->)]];
    cbn [snd]; [apply Hg | discriminate |].
  intros [= <-]. cbn [index].
  destruct Hc0 as [-> | [-> Hinit]]; [apply Hg; reflexivity |].
  apply (init_cursor w n None); [discriminate |].
  rewrite Hinit. reflexivity.
Qed.

Lemma reachable_cursor (g : global) (c : quantum_cache) :
  reachable g -> g = Some c -> index c = 0.
Proof.
  intros Hr. revert c. induction Hr as [| cl g _ IH]; [discriminate |].
  intros c. destruct cl; cbn [run].
  - apply init_cursor. exact IH.
  - destruct g; discriminate.
  - apply preload_cursor. exact IH.
  - apply IH.
  - apply IH.
Qed.
End QC_facts.

(** * The properties of the specification *)

Import QC QC_facts Samples.
Local Open Scope N_scope.

(** ** Point lookup *)

(** C1, as the claim states it, fails: a key and a clock exist for which
    [quantum_cache_preload] stores the seed 2^64 - 1, and the lookup of
    that seed is exactly 1.0, outside [0.0, 1.0). *)
Lemma get_random_reaches_one :
  let g := snd (quantum_cache_preload still_world (Some top_key) 1 None) in
  reachable g /\
  (exists c, g = Some c /\ load 0 (seeds c) = U64.UINT64_MAX) /\
  quantum_cache_get_random 0 g = B64.one /\
  in_unit_half_open (quantum_cache_get_random 0 g) = false.
Proof.
  split.
  - apply (reachable_step (Preload still_world (Some top_key) 1)).
    apply reachable_start.
  - vm_compute. split; [eexists; split; reflexivity | split; reflexivity].
Qed.

(** C1 (amended): in every well-formed cache state, present or absent, and
    at every index, [quantum_cache_get_random] returns a value in the
    closed interval [0.0, 1.0]; the value is outside [0.0, 1.0) exactly
    when the index is in range and the seed stored there is at least
    2^64 - 1024 (the value is then 1.0); and in the state a successful
    [quantum_cache_init] leaves, the value is in [0.0, 1.0) at every
    index. *)
Theorem get_random_unit_interval (g : global) (i : N) :
  well_formed g ->
  in_unit_closed (quantum_cache_get_random i g) = true /\
  (in_unit_half_open (quantum_cache_get_random i g) = false <->
   exists c, g = Some c /\ i < size c /\
             2 ^ 64 - 1024 <= load i (seeds c)) /\
  (forall w n g0,
     quantum_cache_init w n g0 = (0%Z, g) ->
     in_unit_half_open (quantum_cache_get_random i g) = true).
Proof.
  intros Hwf.
  assert (Hfb : forall g', (g' = None \/ exists c, g' = Some c /\ size c <= i) ->
            in_unit_closed (quantum_cache_get_random i g') = true /\
            in_unit_half_open (quantum_cache_get_random i g') = true).
  { intros g' Hg'. rewrite (get_random_fallback g' i Hg'). split; reflexivity. }
  split; [| split].
  - destruct g as [c |]; [| apply Hfb; auto].
    destruct (N.lt_ge_cases i (size c)) as [Hi | Hi]; [| apply Hfb; eauto].
    rewrite get_random_in_range by assumption.
    apply seed_ratio, load_lt; assumption.
  - split.
    + intros Hout. destruct g as [c |].
      * destruct (N.lt_ge_cases i (size c)) as [Hi | Hi].
        -- exists c. split; [reflexivity |]. split; [assumption |].
           rewrite get_random_in_range in Hout by assumption.
           destruct (seed_ratio (load i (seeds c)) (load_lt c i Hwf Hi))
             as (_ & _ & Hiff & _).
           destruct (N.lt_ge_cases (load i (seeds c)) (2 ^ 64 - 1024))
             as [Hlt | Hge]; [| assumption].
           apply Hiff in Hlt. congruence.
        -- destruct (Hfb (Some c)) as [_ Hin]; [eauto | congruence].
      * destruct (Hfb None) as [_ Hin]; [auto | congruence].
    + intros (c & -> & Hi & Hge).
      rewrite get_random_in_range by assumption.
      destruct (seed_ratio (load i (seeds c)) (load_lt c i Hwf Hi))
        as (_ & _ & Hiff & _).
      destruct (in_unit_half_open _); [| reflexivity].
      assert (load i (seeds c) < 2 ^ 64 - 1024) by (apply Hiff; reflexivity).
      lia.
  - intros w n g0 Hinit.
    destruct (init_cases w n g0) as [[_ He] | [Hn [He | [He | He]]]];
      rewrite He in Hinit; try discriminate.
    injection Hinit as <-.
    destruct (N.lt_ge_cases i n) as [Hi | Hi].
    + rewrite get_random_in_range by assumption. cbn [seeds].
      erewrite load_lookup.
      2:{ rewrite for_upto_store_lookup, decide_True; [reflexivity |].
          rewrite repeat_length. lia. }
      apply seed_ratio.
      * apply initial_seed_lt.
      * apply initial_seed_below.
    + apply Hfb. right. eexists. split; [reflexivity | assumption].
Qed.

Lemma get_random_unit_interval_witness :
  well_formed (Some three_seeds) /\
  in_unit_closed (quantum_cache_get_random 1 (Some three_seeds)) = true.
Proof.
  assert (Hwf : well_formed (Some three_seeds)).
  { cbn. split; [lia |]. split; [reflexivity |].
    repeat (constructor; [reflexivity |]). constructor. }
  split; [exact Hwf |].
  exact (proj1 (get_random_unit_interval (Some three_seeds) 1 Hwf)).
Defined.

(** C3: for a present cache and an index below the capacity,
    [quantum_cache_get_random] returns the floating-point quotient of the
    stored seed by 2^64: the divisor [UINT64_MAX] is the double 2^64 once
    converted, and the result is the real ratio [seed / 2^64] correctly
    rounded. *)
Theorem get_random_ratio (c : quantum_cache) (i : N) :
  well_formed (Some c) -> i < size c ->
  quantum_cache_get_random i (Some c)
  = B64.div (B64.of_u64 (load i (seeds c))) B64.two_pow_64 /\
  quantum_cache_get_random i (Some c)
  = B64.ratio_pow2 (load i (seeds c)) 64.
Proof.
  intros Hwf Hi. rewrite get_random_in_range by assumption.
  split; [reflexivity |]. apply seed_ratio, load_lt; assumption.
Qed.

Lemma get_random_ratio_witness :
  quantum_cache_get_random 2 (Some three_seeds)
  = B64.ratio_pow2 9223372036854775808 64.
Proof.
  refine (proj2 (get_random_ratio three_seeds 2 _ _)).
  - cbn. split; [lia |]. split; [reflexivity |].
    repeat (constructor; [reflexivity |]). constructor.
  - reflexivity.
Defined.

(** C4: the lookup and the phase derivation do not fail, they fall back:
    with the cache absent or the index at or past the capacity
    [quantum_cache_get_random] returns exactly 0.5, and with the cache
    absent [compute_quantum_phase] returns exactly [M_PI], whatever the
    two identifiers. *)
Theorem fallback_constants (g : global) (i a b : N) :
  (g = None \/ exists c, g = Some c /\ size c <= i) ->
  quantum_cache_get_random i g = B64.half /\
  (g = None -> compute_quantum_phase a b g = B64.M_PI).
Proof.
  intros Hg. split; [apply get_random_fallback; assumption |].
  intros ->. reflexivity.
Qed.

Lemma fallback_constants_witness :
  quantum_cache_get_random 3 (Some three_seeds) = B64.half /\
  quantum_cache_get_random 0 None = B64.half /\
  compute_quantum_phase 5 7 None = B64.M_PI.
Proof.
  split; [| split].
  - refine (proj1 (fallback_constants (Some three_seeds) 3 0 0 _)).
    right. exists three_seeds. split; [reflexivity | cbn; lia].
  - exact (proj1 (fallback_constants None 0 5 7 (or_introl eq_refl))).
  - exact (proj2 (fallback_constants None 0 5 7 (or_introl eq_refl)) eq_refl).
Defined.

(** ** Phase derivation *)

(** C5: with the cache present, [compute_quantum_phase] takes the XOR of
    the two identifiers, swaps the 32-bit halves of that word, reduces it
    modulo the capacity, looks the index up and returns the value times
    two times [M_PI], which is the value times the double 2 pi. *)
Theorem phase_formula (c : quantum_cache) (circuit_id packet_hash : N) :
  well_formed (Some c) ->
  circuit_id < U64.modulus -> packet_hash < U64.modulus ->
  let combined := swap_halves (N.lxor circuit_id packet_hash) in
  let index := combined mod size c in
  let value := quantum_cache_get_random index (Some c) in
  index < size c /\
  compute_quantum_phase circuit_id packet_hash (Some c)
  = B64.mul (B64.mul value B64.two) B64.M_PI /\
  compute_quantum_phase circuit_id packet_hash (Some c)
  = B64.mul value B64.two_pi.
Proof.
  intros Hwf Ha Hb. cbv zeta.
  assert (Hsz : size c <> 0) by (destruct Hwf as [? _]; lia).
  assert (Hidx : swap_halves (N.lxor circuit_id packet_hash) mod size c
                 < size c) by (apply N.mod_lt; assumption).
  assert (Hphase : compute_quantum_phase circuit_id packet_hash (Some c)
            = B64.mul
                (B64.mul
                   (quantum_cache_get_random
                      (swap_halves (N.lxor circuit_id packet_hash) mod size c)
                      (Some c)) B64.two) B64.M_PI).
  { unfold compute_quantum_phase.
    rewrite rotate_swap_halves by (apply lxor_u64; assumption). reflexivity. }
  split; [assumption |]. split; [assumption |].
  rewrite Hphase. apply mul_two_pi.
  rewrite get_random_in_range by assumption.
  destruct (seed_ratio _ (load_lt c _ Hwf Hidx))
    as (_ & _ & _ & [Hz | (m & e & He & Hd & Hb')]); [left; assumption |].
  right. exists m, e. repeat split; try assumption; lia.
Qed.

Lemma phase_formula_witness :
  compute_quantum_phase 4294967296 3 (Some three_seeds)
  = B64.mul (quantum_cache_get_random 1 (Some three_seeds)) B64.two_pi.
Proof.
  refine (proj2 (proj2 (phase_formula three_seeds 4294967296 3 _ _ _))).
  - cbn. split; [lia |]. split; [reflexivity |].
    repeat (constructor; [reflexivity |]). constructor.
  - reflexivity.
  - reflexivity.
Defined.

(** C7: for every cache state, [compute_quantum_phase] gives the same
    result with its two identifiers exchanged; the index is the one of the
    code, XOR, rotation by 32 bits, then modulo. *)
Theorem phase_symmetric (a b : N) (g : global) :
  compute_quantum_phase a b g = compute_quantum_phase b a g.
Proof.
  unfold compute_quantum_phase. destruct g as [c |]; [| reflexivity].
  rewrite (N.lxor_comm a b). reflexivity.
Qed.

(** ** Bulk population *)

(** C2, as the claim states it, fails: with the empty key, a valid count
    and no cache, [quantum_cache_preload] succeeds and leaves a cache of
    that capacity. *)
Lemma preload_accepts_empty_key :
  fst (quantum_cache_preload busy_world (Some []) 5 None) = 0%Z /\
  exists c,
    snd (quantum_cache_preload busy_world (Some []) 5 None) = Some c /\
    size c = 5 /\ length (seeds c) = 5%nat.
Proof.
  split; [reflexivity |]. vm_compute. eexists. repeat split.
Qed.

(** C2 (amended): [quantum_cache_preload] with a missing key (the null
    pointer) fails with the invalid-argument code -1 and leaves the global
    state as it was, so that no cache is created when none exists.  The
    empty key is no error: it is the key whose accumulator is 0, and on a
    present cache the call returns -1 for a count outside [1, 10_000_000]
    and 0 otherwise. *)
Theorem preload_rejects_missing_key (w : world) (count : N) (g : global) :
  quantum_cache_preload w None count g = ((-1)%Z, g) /\
  fold_key [] = 0 /\
  forall c,
    fst (quantum_cache_preload w (Some []) count (Some c))
    = if (count =? 0) || (10000000 <? count) then (-1)%Z else 0%Z.
Proof.
  split; [reflexivity |]. split; [reflexivity |].
  intros c. unfold quantum_cache_preload.
  destruct ((count =? 0) || (10000000 <? count)); reflexivity.
Qed.

(** C6: for a key without NUL byte, a count in [1, 10_000_000] and a
    present cache whose store has [size] entries, whatever the clock
    samples, [quantum_cache_preload] succeeds, keeps the capacity, and
    writes at each index [i] below [min count size] the value the
    specification's mixing gives for the [i]-th clock sample and the
    accumulator of the key; the entries from [min count size] on are
    left as they were. *)
Theorem preload_writes_mixed_seeds (w : world) (key : list byte) (count : N)
    (c : quantum_cache) :
  ~ In x00 key -> 1 <= count <= 10000000 ->
  length (seeds c) = N.to_nat (size c) ->
  exists c',
    quantum_cache_preload w (Some key) count (Some c) = (0%Z, Some c') /\
    size c' = size c /\
    length (seeds c') = length (seeds c) /\
    (forall i, i < N.min count (size c) ->
       seeds c' !! N.to_nat i
       = Some (spec_mix (U64.of_Z (snd (clock_gettime w i)))
                        (U64.of_Z (fst (clock_gettime w i)))
                        i (spec_key_fold key))) /\
    (forall i, N.min count (size c) <= i ->
       seeds c' !! N.to_nat i = seeds c !! N.to_nat i).
Proof.
  intros Hnul Hcount Hlen.
  destruct (preload_present w (Some key) count c)
    as [Hbad | (key' & [= <-] & _ & Hok)].
  - exfalso. unfold quantum_cache_preload in Hbad.
    destruct (N.eqb_spec count 0) as [? | _]; [lia |].
    destruct (N.ltb_spec 10000000 count) as [? | _]; [lia |].
    discriminate.
  - eexists. split; [exact Hok |]. cbn [size seeds].
    split; [reflexivity |]. split; [apply for_upto_store_length |].
    split; intros i Hi; rewrite for_upto_store_lookup.
    + rewrite decide_True by lia.
      rewrite mix_spec, fold_key_spec by assumption. reflexivity.
    + rewrite decide_False by lia. reflexivity.
Qed.

Lemma preload_writes_mixed_seeds_witness :
  exists c',
    quantum_cache_preload busy_world (Some abc_key) 2 (Some three_seeds)
    = (0%Z, Some c') /\
    seeds c' !! 1%nat = Some (spec_mix 1001 5 1 6382179) /\
    seeds c' !! 2%nat = Some 9223372036854775808.
Proof.
  destruct (preload_writes_mixed_seeds busy_world abc_key 2 three_seeds)
    as (c' & Hrun & _ & _ & Hin & Hout).
  - cbn. intros [H | [H | [H | []]]]; discriminate H.
  - lia.
  - reflexivity.
  - exists c'. split; [exact Hrun |]. split.
    + exact (Hin 1 ltac:(cbn; lia)).
    + exact (Hout 2 ltac:(cbn; lia)).
Defined.

(** ** Life cycle *)

(** C8: [quantum_cache_init] with capacity 0 or above 10_000_000 returns
    the invalid-size code -1 and leaves the global state as it was; in
    particular no cache is present afterwards when none was before. *)
Theorem init_rejects_bad_size (w : world) (cache_size : N) (g : global) :
  cache_size = 0 \/ 10000000 < cache_size ->
  quantum_cache_init w cache_size g = ((-1)%Z, g) /\
  (g = None -> snd (quantum_cache_init w cache_size g) = None).
Proof.
  intros Hbad.
  assert (He : quantum_cache_init w cache_size g = ((-1)%Z, g)).
  { destruct (init_cases w cache_size g) as [[_ He] | [Hok _]];
      [exact He | lia]. }
  split; [exact He |]. intros ->. rewrite He. reflexivity.
Qed.

Lemma init_rejects_bad_size_witness :
  quantum_cache_init busy_world 0 None = ((-1)%Z, None) /\
  quantum_cache_init busy_world 10000001 None = ((-1)%Z, None) /\
  quantum_cache_init busy_world 10000001 (Some three_seeds)
  = ((-1)%Z, Some three_seeds).
Proof.
  split; [| split].
  - exact (proj1 (init_rejects_bad_size busy_world 0 None
                    (or_introl eq_refl))).
  - exact (proj1 (init_rejects_bad_size busy_world 10000001 None
                    (or_intror eq_refl))).
  - exact (proj1 (init_rejects_bad_size busy_world 10000001
                    (Some three_seeds) (or_intror eq_refl))).
Defined.

(** C9: in every state that calls of create, destroy, populate, lookup
    and phase derivation reach from the initial absent state, a present
    cache has its capacity in [1, 10_000_000] and a store of exactly that
    many entries; the capacity is not 0, so the index [combined mod size]
    of [compute_quantum_phase] is defined and below the capacity. *)
Theorem reachable_capacity (g : global) (c : quantum_cache) :
  reachable g -> g = Some c ->
  1 <= size c <= 10000000 /\
  length (seeds c) = N.to_nat (size c) /\
  size c <> 0 /\
  forall combined, combined mod size c < size c.
Proof.
  intros Hr ->. destruct (reachable_well_formed _ Hr) as (Hsz & Hlen & _).
  split; [assumption |]. split; [assumption |].
  split; [lia |]. intros x. apply N.mod_lt. lia.
Qed.

Lemma reachable_capacity_witness :
  let g := run_all [Init busy_world 3; Preload still_world (Some abc_key) 2;
                    ComputePhase 1 2] None in
  reachable g /\
  exists c, g = Some c /\
    1 <= size c <= 10000000 /\ length (seeds c) = N.to_nat (size c).
Proof.
  cbv zeta.
  assert (Hr : reachable
                 (run_all [Init busy_world 3;
                           Preload still_world (Some abc_key) 2;
                           ComputePhase 1 2] None)).
  { apply (reachable_step (ComputePhase 1 2)).
    apply (reachable_step (Preload still_world (Some abc_key) 2)).
    apply (reachable_step (Init busy_world 3)).
    apply reachable_start. }
  split; [exact Hr |].
  eexists. split; [reflexivity |].
  destruct (reachable_capacity _ _ Hr eq_refl) as (H1 & H2 & _).
  split; [exact H1 | exact H2].
Defined.

(** C10: the cursor (the member [index]) is 0 in every reachable state
    with a cache present; a successful [quantum_cache_init] sets it to 0,
    and populate, lookup and phase derivation leave it as it is: after
    [quantum_cache_preload] the cache is still present with the same
    cursor, and the other two change no state at all. *)
Theorem cursor_untouched (g : global) (c : quantum_cache) :
  reachable g -> g = Some c ->
  index c = 0 /\
  (forall w n g0 c0,
     quantum_cache_init w n g0 = (0%Z, Some c0) -> index c0 = 0) /\
  (forall w k n, exists c',
     snd (quantum_cache_preload w k n g) = Some c' /\ index c' = index c) /\
  (forall i, run (GetRandom i) g = g) /\
  (forall a b, run (ComputePhase a b) g = g).
Proof.
  intros Hr ->. split; [apply (reachable_cursor _ _ Hr eq_refl) |].
  split; [| split; [| split; reflexivity]].
  - intros w n g0 c0 Hinit.
    destruct (init_cases w n g0) as [[_ He] | [_ [He | [He | He]]]];
      rewrite He in Hinit; try discriminate.
    injection Hinit as <-. reflexivity.
  - intros w k n.
    destruct (preload_present w k n c) as [-> | (key & _ & _ & ->)];
      eexists; split; reflexivity.
Qed.

Lemma cursor_untouched_witness :
  let g := run_all [Preload busy_world (Some abc_key) 4; Init still_world 2]
                   None in
  reachable g /\ exists c, g = Some c /\ index c = 0.
Proof.
  cbv zeta.
  assert (Hr : reachable
                 (run_all [Preload busy_world (Some abc_key) 4;
                           Init still_world 2] None)).
  { apply (reachable_step (Init still_world 2)).
    apply (reachable_step (Preload busy_world (Some abc_key) 4)).
    apply reachable_start. }
  split; [exact Hr |].
  eexists. split; [reflexivity |].
  exact (proj1 (cursor_untouched _ _ Hr eq_refl)).
Defined.

(** * Further properties of the code *)

(** ** More about binary64 rounding *)

Module B64_more.
Import B64 B64_facts.
Local Open Scope Z_scope.

Lemma Zdigits2_shift (m n : Z) :
  0 < m -> 0 <= n -> Zdigits2 (m * 2 ^ n) = Zdigits2 m + n.
Proof.
  intros Hm Hn. pose proof (Zdigits2_bounds m Hm) as Hb.
  assert (H1 : 0 < Zdigits2 m) by (destruct m; cbn; lia).
  assert (Hp : 0 < 2 ^ n) by (apply Z.pow_pos_nonneg; lia).
  apply Zdigits2_unique; [lia |].
  replace (Zdigits2 m + n - 1) with (Zdigits2 m - 1 + n) by lia.
  rewrite !Z.pow_add_r by lia. nia.
Qed.

(** A mantissa of at most [prec] digits is kept as it is. *)
Lemma normalize_rel_small (m : Z) :
  0 < m -> Zdigits2 m <= prec ->
  normalize_rel m = (m * 2 ^ (prec - Zdigits2 m), Zdigits2 m - prec).
Proof.
  intros Hm Hd. unfold normalize_rel.
  destruct (Z.ltb_spec (Zdigits2 m) prec) as [_ | Hge]; [reflexivity |].
  assert (He : Zdigits2 m = prec) by lia.
  rewrite He, Z.sub_diag. change (2 ^ 0) with 1. rewrite Z.mul_1_r.
  pose proof (round_rel_exact m 0 Hm He ltac:(lia)) as Hr.
  change (2 ^ 0) with 1 in Hr. rewrite Z.mul_1_r in Hr. exact Hr.
Qed.

(** Zeros appended to such a mantissa only raise the exponent. *)
Lemma normalize_rel_shift (m n : Z) :
  0 < m -> 0 <= n -> Zdigits2 m <= prec ->
  normalize_rel (m * 2 ^ n)
  = (m * 2 ^ (prec - Zdigits2 m), Zdigits2 m - prec + n).
Proof.
  intros Hm Hn Hd.
  assert (Hp : 0 < 2 ^ n) by (apply Z.pow_pos_nonneg; lia).
  assert (Hq : 0 < 2 ^ (prec - Zdigits2 m)) by (apply Z.pow_pos_nonneg; lia).
  pose proof (Zdigits2_shift m n Hm Hn) as Hs.
  unfold normalize_rel. rewrite Hs.
  destruct (Z.ltb_spec (Zdigits2 m + n) prec) as [Hlt | Hge].
  - f_equal; [| lia].
    rewrite <- Z.mul_assoc, <- Z.pow_add_r by lia. do 2 f_equal. lia.
  - replace (m * 2 ^ n)
      with (m * 2 ^ (prec - Zdigits2 m) * 2 ^ (Zdigits2 m - prec + n)).
    + apply round_rel_exact; [nia | apply Zdigits2_pad; assumption | lia].
    + rewrite <- Z.mul_assoc, <- Z.pow_add_r by lia. do 2 f_equal. lia.
Qed.

Lemma leb_finite (m1 m2 : positive) (e1 e2 : Z) :
  e1 < e2 \/ (e1 = e2 /\ Z.pos m1 <= Z.pos m2) ->
  leb (S754_finite false m1 e1) (S754_finite false m2 e2) = true.
Proof.
  unfold leb, SFleb, SFcompare. intros [He | [-> Hm]].
  - destruct (Z.compare_spec e1 e2); reflexivity || lia.
  - rewrite Z.compare_refl, Pos.compare_cont_spec. cbn [Pos.switch_Eq].
    destruct (Pos.compare_spec m1 m2); reflexivity || lia.
Qed.

(** A normal number below 1 times the double 2 pi is at most 2 pi. *)
Lemma mul_two_pi_le (m : positive) (e : Z) :
  Zdigits2 (Z.pos m) = prec -> -900 <= e < -52 ->
  leb zero (mul (S754_finite false m e) two_pi) = true /\
  leb (mul (S754_finite false m e) two_pi) two_pi = true.
Proof.
  intros Hd He.
  pose proof (Zdigits2_bounds (Z.pos m) ltac:(lia)) as Hb. rewrite Hd in Hb.
  unfold prec in Hb. change (2 ^ (53 - 1)) with (2 ^ 52) in Hb.
  unfold mul, SFmul, two_pi. cbn [xorb].
  rewrite binary_round_aux_rel by lia. rewrite Pos2Z.inj_mul.
  set (P := Z.pos m * 7074237752028440).
  assert (HP : 2 ^ 104 <= P < 2 ^ 53 * 7074237752028440) by (unfold P; lia).
  assert (HP0 : 0 < P) by lia.
  pose proof (Zdigits2_bounds P HP0) as HD.
  assert (HDlo : 105 <= Zdigits2 P).
  { destruct (Z.le_gt_cases 105 (Zdigits2 P)) as [| Hlt]; [assumption |].
    assert (2 ^ Zdigits2 P <= 2 ^ 104) by (apply Z.pow_le_mono_r; lia). lia. }
  assert (HDhi : Zdigits2 P <= 106).
  { destruct (Z.le_gt_cases (Zdigits2 P) 106) as [| Hgt]; [assumption |].
    assert (2 ^ 106 <= 2 ^ (Zdigits2 P - 1)) by (apply Z.pow_le_mono_r; lia).
    lia. }
  destruct (round_rel_bound P (Zdigits2 P - prec) HP0
              ltac:(unfold prec; lia) ltac:(lia))
    as (m' & d & -> & Hm' & Hcases).
  cbn [fst snd]. destruct m' as [| q | q]; try lia.
  assert (Hle : e + -50 + d < -50 \/
                (e + -50 + d = -50 /\ Z.pos q <= 7074237752028440)).
  { unfold prec in Hcases.
    destruct (Z.eq_dec (Zdigits2 P) 105) as [H105 | Hne].
    - rewrite H105 in Hcases.
      destruct Hcases as [[-> _] | (-> & Hq & _)]; [left; lia |].
      destruct (Z.eq_dec e (-53)) as [-> | ?]; [right | left; lia].
      split; [reflexivity | lia].
    - assert (H106 : Zdigits2 P = 106) by lia. rewrite H106 in Hcases.
      change (106 - 53) with 53 in Hcases.
      assert (Hquo : P / 2 ^ 53 < 7074237752028440)
        by (apply Z.div_lt_upper_bound; lia).
      destruct Hcases as [[-> Hq] | (_ & _ & Hq)]; [| lia].
      destruct (Z.eq_dec e (-53)) as [-> | ?]; [right | left; lia].
      split; [reflexivity | lia]. }
  rewrite of_mantissa_finite by lia.
  split; [reflexivity | apply leb_finite; exact Hle].
Qed.
End B64_more.

Import B64_facts B64_more.

(** ** Life cycle, continued *)

(** X1: what [quantum_cache_init] returns and leaves.  It returns 0 exactly
    when the size is in [1, 10_000_000] and the two allocations and the
    lock initialisation succeed, -1 exactly for a size out of range, and
    otherwise -2 or -3.  After -1 the global state is untouched; after -2
    or -3 no cache is present, also when one was present before the call;
    after 0 a cache of the requested size is present, the same whatever
    the state before the call. *)
Theorem init_outcomes (w : world) (n : N) (g : global) :
  let r := quantum_cache_init w n g in
  (fst r = 0%Z <->
   1 <= n <= 10000000 /\ malloc_cache_ok w = true /\
   malloc_seeds_ok w = true /\ rwlock_init_ok w = true) /\
  (fst r = (-1)%Z <-> n = 0 \/ 10000000 < n) /\
  (fst r = 0%Z \/ fst r = (-1)%Z \/ fst r = (-2)%Z \/ fst r = (-3)%Z) /\
  (fst r = (-1)%Z -> snd r = g) /\
  (fst r = (-2)%Z \/ fst r = (-3)%Z -> snd r = None) /\
  (fst r = 0%Z ->
   r = quantum_cache_init w n None /\
   exists c, snd r = Some c /\ size c = n /\
             length (seeds c) = N.to_nat n).
Proof.
  cbv zeta. unfold quantum_cache_init.
  destruct (N.eqb_spec n 0) as [Hn0 | Hn0];
    [| destruct (N.ltb_spec 10000000 n) as [Hbig | Hok]];
    cbn [orb fst snd];
    try (repeat split; intros; try discriminate; try lia; auto;
         match goal with H : _ \/ _ |- _ => destruct H; discriminate end).
  destruct (malloc_cache_ok w), (malloc_seeds_ok w), (rwlock_init_ok w);
    cbn [negb fst snd];
    repeat split; intros; try discriminate; try lia; auto;
    try (match goal with H : _ /\ _ |- _ => decompose [and] H end;
         discriminate);
    try (match goal with H : _ \/ _ |- _ => destruct H; lia end).
  all: eexists; split; [reflexivity |]; split; [reflexivity |];
    cbn [seeds]; rewrite for_upto_store_length, repeat_length; reflexivity.
Qed.

(** X2: the seeds a successful [quantum_cache_init] stores.  The seed at
    index [i] is the 48-bit state of the [i]-th draw times 2^16: the
    double [drand48() * UINT64_MAX] holds that integer exactly.  Every
    such seed has its 16 low bits clear and is at most 2^64 - 2^16. *)
Theorem init_seed_values (w : world) (n : N) (g0 : global)
    (c : quantum_cache) (i : N) :
  quantum_cache_init w n g0 = (0%Z, Some c) -> i < n ->
  seeds c !! N.to_nat i = Some (Z.to_N ((drand48 w i mod 2 ^ 48) * 2 ^ 16)) /\
  load i (seeds c) mod 2 ^ 16 = 0 /\
  load i (seeds c) <= 2 ^ 64 - 2 ^ 16.
Proof.
  intros Hinit Hi.
  destruct (init_cases w n g0) as [[_ He] | [Hn [He | [He | He]]]];
    rewrite He in Hinit; try discriminate.
  injection Hinit as <-. cbn [seeds].
  assert (Hl : for_upto n (fun i a => store i (initial_seed (drand48 w i)) a)
                 (repeat 0 (N.to_nat n)) !! N.to_nat i
               = Some (Z.to_N ((drand48 w i mod 2 ^ 48) * 2 ^ 16))).
  { rewrite for_upto_store_lookup, decide_True
      by (rewrite repeat_length; lia).
    rewrite initial_seed_spec. reflexivity. }
  split; [exact Hl |]. rewrite (load_lookup _ _ _ Hl).
  pose proof (Z.mod_pos_bound (drand48 w i) (2 ^ 48)%Z ltac:(lia)) as Hk.
  set (k := (drand48 w i mod 2 ^ 48)%Z) in *.
  replace (Z.to_N (k * 2 ^ 16)) with (Z.to_N k * 2 ^ 16) by lia.
  split; [apply N.Div0.mod_mul | lia].
Qed.

Lemma init_seed_values_witness :
  seeds (Build_quantum_cache [5046272; 65541242880] 2 0) !! 1%nat
  = Some (Z.to_N (((1 * 1000003 + 77) mod 2 ^ 48) * 2 ^ 16)).
Proof.
  refine (proj1 (init_seed_values busy_world 2 None _ 1 _ _));
    reflexivity.
Defined.

(** X3: create then look up.  Right after a successful
    [quantum_cache_init], [quantum_cache_get_random] at an index below the
    size returns exactly the double that the draw of [drand48] for that
    index returned: scaling by 2^64, truncating to [uint64_t], converting
    back and dividing by 2^64 loses nothing. *)
Theorem init_lookup_round_trip (w : world) (n : N) (g0 g : global) (i : N) :
  quantum_cache_init w n g0 = (0%Z, g) -> i < n ->
  quantum_cache_get_random i g = drand48_value (drand48 w i).
Proof.
  intros Hinit Hi.
  destruct (init_cases w n g0) as [[_ He] | [Hn [He | [He | He]]]];
    rewrite He in Hinit; try discriminate.
  injection Hinit as <-.
  rewrite get_random_in_range by assumption. cbn [seeds].
  erewrite load_lookup.
  2:{ rewrite for_upto_store_lookup, decide_True; [reflexivity |].
      rewrite repeat_length. lia. }
  destruct (seed_ratio _ (initial_seed_lt (drand48 w i))) as [-> _].
  rewrite initial_seed_spec. unfold B64.ratio_pow2, drand48_value.
  pose proof (Z.mod_pos_bound (drand48 w i) (2 ^ 48)%Z ltac:(lia)) as Hk.
  set (k := (drand48 w i mod 2 ^ 48)%Z) in *.
  rewrite Z2N.id by lia.
  destruct (Z.eq_dec k 0%Z) as [-> | Hk0]; [reflexivity |].
  assert (Hd : (Zdigits2 k <= B64.prec)%Z).
  { pose proof (Zdigits2_bounds k ltac:(lia)) as Hb.
    destruct (Z.le_gt_cases (Zdigits2 k) 48%Z) as [| Hgt];
      [unfold B64.prec; lia |].
    assert (2 ^ 48 <= 2 ^ (Zdigits2 k - 1))%Z
      by (apply Z.pow_le_mono_r; lia).
    lia. }
  rewrite !binary_normalize_rel by (try lia; nia).
  rewrite B64_more.normalize_rel_shift, B64_more.normalize_rel_small
    by (assumption || lia).
  cbn [fst snd]. f_equal. lia.
Qed.

Lemma init_lookup_round_trip_witness :
  quantum_cache_get_random 1 (snd (quantum_cache_init busy_world 2 None))
  = drand48_value 1000080.
Proof.
  exact (init_lookup_round_trip busy_world 2 None _ 1 eq_refl eq_refl).
Defined.

(** X4: [quantum_cache_destroy] leaves no cache, from any state, and a
    second call changes nothing.  After it, lookup and phase derivation
    give their fallbacks, and create and populate behave as in a process
    that never had a cache. *)
Theorem destroy_resets (g : global) :
  quantum_cache_destroy g = None /\
  quantum_cache_destroy (quantum_cache_destroy g) = quantum_cache_destroy g /\
  (forall i, quantum_cache_get_random i (quantum_cache_destroy g)
             = B64.half) /\
  (forall a b, compute_quantum_phase a b (quantum_cache_destroy g)
               = B64.M_PI) /\
  (forall w n, quantum_cache_init w n (quantum_cache_destroy g)
               = quantum_cache_init w n None) /\
  (forall w k n, quantum_cache_preload w k n (quantum_cache_destroy g)
                 = quantum_cache_preload w k n None).
Proof.
  assert (He : quantum_cache_destroy g = None) by (destruct g; reflexivity).
  rewrite !He. repeat split.
Qed.

(** ** Phase derivation, continued *)

(** The lookup of a 64-bit seed is 0, or a normal number below 1, or 1. *)
Lemma seed_ratio_shape (s : N) :
  s < U64.modulus ->
  B64.div (B64.of_u64 s) B64.two_pow_64 = B64.zero \/
  B64.div (B64.of_u64 s) B64.two_pow_64 = B64.one \/
  exists (m : positive) (e : Z),
    B64.div (B64.of_u64 s) B64.two_pow_64 = S754_finite false m e /\
    Zdigits2 (Z.pos m) = B64.prec /\ (-116 <= e < -52)%Z.
Proof.
  unfold U64.modulus. intros Hs.
  destruct (N.eq_dec s 0) as [-> | Hs0]; [left; reflexivity |].
  destruct (of_u64_pos s ltac:(lia)) as (m & e & Hof & _ & Hd & He & Hm).
  rewrite Hof, div_two_pow_64 by (assumption || lia).
  destruct (Z.eq_dec e 12%Z) as [He12 | Hne].
  - right. left. rewrite (Hm He12), He12. reflexivity.
  - right. right. exists m, (e - 64)%Z. repeat split; try assumption; lia.
Qed.

(** X5: the phase is in the closed interval from 0 to the double 2 pi, in
    every well-formed state and for all identifiers; it is exactly 2 pi
    when the seed at the derived index is at least 2^64 - 1024. *)
Theorem phase_range (g : global) (circuit_id packet_hash : N) :
  well_formed g ->
  B64.leb B64.zero (compute_quantum_phase circuit_id packet_hash g) = true /\
  B64.leb (compute_quantum_phase circuit_id packet_hash g) B64.two_pi = true /\
  (forall c, g = Some c ->
     let combined := N.lxor circuit_id packet_hash in
     let combined :=
       N.lor (U64.shiftl combined 32) (U64.shiftr combined 32) in
     2 ^ 64 - 1024 <= load (combined mod size c) (seeds c) ->
     compute_quantum_phase circuit_id packet_hash g = B64.two_pi).
Proof.
  intros Hwf. destruct g as [c |].
  2:{ split; [reflexivity |]. split; [reflexivity | discriminate]. }
  assert (Hsz : size c <> 0) by (destruct Hwf as [? _]; lia).
  unfold compute_quantum_phase.
  set (idx := N.lor _ _ mod size c).
  assert (Hidx : idx < size c) by (apply N.mod_lt; assumption).
  rewrite get_random_in_range by assumption.
  pose proof (load_lt c idx Hwf Hidx) as Hlt.
  assert (Hrange :
    B64.leb B64.zero
      (B64.mul (B64.mul (B64.div (B64.of_u64 (load idx (seeds c)))
                           B64.two_pow_64) B64.two) B64.M_PI) = true /\
    B64.leb
      (B64.mul (B64.mul (B64.div (B64.of_u64 (load idx (seeds c)))
                           B64.two_pow_64) B64.two) B64.M_PI)
      B64.two_pi = true).
  { destruct (seed_ratio_shape _ Hlt)
      as [-> | [-> | (m & e & -> & Hd & He)]];
      [split; reflexivity | split; reflexivity |].
    rewrite mul_two_pi
      by (right; exists m, e; repeat split; try assumption; lia).
    apply mul_two_pi_le; [assumption | lia]. }
  split; [apply Hrange |]. split; [apply Hrange |].
  intros c' [= <-]. cbv zeta. fold idx. intros Htop.
  rewrite (of_u64_top (load idx (seeds c))) by (unfold U64.modulus in Hlt; lia).
  reflexivity.
Qed.

Lemma phase_range_witness :
  compute_quantum_phase 4294967296 3 (Some three_seeds) = B64.two_pi.
Proof.
  refine (proj2 (proj2 (phase_range (Some three_seeds) 4294967296 3 _))
            three_seeds eq_refl _).
  - cbn. split; [lia |]. split; [reflexivity |].
    repeat (constructor; [reflexivity |]). constructor.
  - cbv. discriminate.
Defined.

(** ** Bulk population, continued *)

Lemma preload_present_ok (w : world) (key : list byte) (n : N)
    (c : quantum_cache) :
  1 <= n <= 10000000 ->
  quantum_cache_preload w (Some key) n (Some c)
  = (0%Z,
     Some {| seeds :=
               for_upto (N.min n (size c))
                 (fun i a =>
                    store i (mix (clock_gettime w i) i (fold_key key)) a)
                 (seeds c);
             size := size c; index := index c |}).
Proof.
  intros Hn.
  destruct (preload_present w (Some key) n c)
    as [Hbad | (key' & [= <-] & _ & Hok)]; [| exact Hok].
  exfalso. unfold quantum_cache_preload in Hbad.
  destruct (N.eqb_spec n 0) as [? | _]; [lia |].
  destruct (N.ltb_spec 10000000 n) as [? | _]; [lia |].
  discriminate.
Qed.

(** X6: populate on an absent cache, with a key and a count in range.
    When the creation fails its code is returned and no cache is left;
    when it succeeds the call returns 0 and leaves a cache of capacity
    [count], cursor 0, in which every one of the [count] seeds is the mix
    for its index: none of the seeds drawn at creation survives. *)
Theorem preload_creates (w : world) (key : list byte) (count : N) :
  1 <= count <= 10000000 ->
  (fst (quantum_cache_init w count None) <> 0%Z ->
   quantum_cache_preload w (Some key) count None
   = (fst (quantum_cache_init w count None), None)) /\
  (fst (quantum_cache_init w count None) = 0%Z ->
   exists c,
     quantum_cache_preload w (Some key) count None = (0%Z, Some c) /\
     size c = count /\ index c = 0 /\
     length (seeds c) = N.to_nat count /\
     forall i, i < count ->
       seeds c !! N.to_nat i
       = Some (mix (clock_gettime w i) i (fold_key key))).
Proof.
  intros Hn. unfold quantum_cache_preload.
  destruct (N.eqb_spec count 0) as [? | _]; [lia |].
  destruct (N.ltb_spec 10000000 count) as [? | _]; [lia |].
  cbn [orb].
  destruct (init_cases w count None) as [[? _] | [_ [Hi | [Hi | Hi]]]];
    [lia | rewrite Hi; cbn [fst negb Z.eqb] ..].
  - split; [reflexivity | discriminate].
  - split; [reflexivity | discriminate].
  - split; [intros []; reflexivity |]. intros _.
    rewrite preload_loop_upto by (cbn [size]; lia).
    eexists. split; [reflexivity |]. cbn [size seeds index].
    split; [reflexivity |]. split; [reflexivity |]. split.
    + rewrite !for_upto_store_length, repeat_length. reflexivity.
    + intros i Hi'. rewrite for_upto_store_lookup, decide_True; [reflexivity |].
      rewrite for_upto_store_length, repeat_length. lia.
Qed.

Lemma preload_creates_witness :
  exists c,
    quantum_cache_preload busy_world (Some abc_key) 3 None = (0%Z, Some c) /\
    size c = 3 /\ index c = 0 /\ length (seeds c) = 3%nat.
Proof.
  destruct (proj2 (preload_creates busy_world abc_key 3 ltac:(lia)) eq_refl)
    as (c & Hc & Hs & Hi & Hl & _).
  exists c. repeat split; assumption.
Defined.

(** With no cache present and arguments in range, the code of
    [quantum_cache_preload] is the code of the creation. *)
Lemma preload_absent_code (w : world) (key : list byte) (n : N) :
  1 <= n <= 10000000 ->
  fst (quantum_cache_preload w (Some key) n None)
  = fst (quantum_cache_init w n None) /\
  fst (quantum_cache_init w n None) <> (-1)%Z.
Proof.
  intros Hn. unfold quantum_cache_preload.
  destruct (N.eqb_spec n 0) as [? | _]; [lia |].
  destruct (N.ltb_spec 10000000 n) as [? | _]; [lia |].
  cbn [orb].
  destruct (init_cases w n None) as [[? _] | [_ [Hi | [Hi | Hi]]]];
    [lia | rewrite Hi; cbn [fst negb Z.eqb]; split; [reflexivity | lia] ..].
Qed.

(** X7: the return code of [quantum_cache_preload].  It is -1 exactly when
    the key is the null pointer or the count is outside [1, 10_000_000],
    and then the state is untouched.  With a cache present the code is 0
    or -1 and the cache stays present with the same capacity, store
    length and cursor; with no cache present a non-zero code leaves no
    cache. *)
Theorem preload_codes (w : world) (k : option (list byte)) (n : N)
    (g : global) :
  let r := quantum_cache_preload w k n g in
  (fst r = (-1)%Z <-> k = None \/ n = 0 \/ 10000000 < n) /\
  (fst r = (-1)%Z -> snd r = g) /\
  (forall c, g = Some c ->
     (fst r = 0%Z \/ fst r = (-1)%Z) /\
     exists c', snd r = Some c' /\ size c' = size c /\
       length (seeds c') = length (seeds c) /\ index c' = index c) /\
  (g = None -> fst r <> 0%Z -> snd r = None).
Proof.
  cbv zeta.
  assert (Hbad : k = None \/ n = 0 \/ 10000000 < n ->
                 quantum_cache_preload w k n g = ((-1)%Z, g)).
  { intros Hk. unfold quantum_cache_preload.
    destruct k as [key |]; [| reflexivity].
    destruct (N.eqb_spec n 0) as [| Hn0]; [reflexivity |].
    destruct (N.ltb_spec 10000000 n) as [| Hok]; [reflexivity |].
    destruct Hk as [? | [? | ?]]; [discriminate | lia | lia]. }
  assert (Hgood : forall key, k = Some key -> 1 <= n <= 10000000 ->
                  fst (quantum_cache_preload w k n g) <> (-1)%Z).
  { intros key -> Hn. destruct g as [c |].
    - rewrite preload_present_ok by assumption. discriminate.
    - destruct (preload_absent_code w key n Hn) as [-> Hne]. exact Hne. }
  split; [| split; [| split]].
  - split; [| intros Hk; rewrite (Hbad Hk); reflexivity].
    intros Hr. destruct k as [key |]; [| auto].
    destruct (N.eq_dec n 0) as [| Hn0]; [auto |].
    destruct (N.lt_ge_cases 10000000 n) as [| Hok]; [auto |].
    exfalso. apply (Hgood key eq_refl); [lia | exact Hr].
  - intros Hr. destruct k as [key |]; [| rewrite Hbad by auto; reflexivity].
    destruct (N.eq_dec n 0) as [| Hn0]; [rewrite Hbad by auto; reflexivity |].
    destruct (N.lt_ge_cases 10000000 n) as [| Hok];
      [rewrite Hbad by auto; reflexivity |].
    exfalso. apply (Hgood key eq_refl); [lia | exact Hr].
  - intros c ->.
    destruct (preload_present w k n c) as [-> | (key & _ & _ & ->)];
      cbn [fst snd].
    + split; [auto |]. exists c. auto.
    + split; [auto |]. eexists. split; [reflexivity |]. cbn [size seeds index].
      rewrite for_upto_store_length. auto.
  - intros -> Hr.
    destruct (preload_cases w k n None)
      as [He | [(_ & ret & _ & He) | (key & c0 & _ & _ & _ & He)]];
      rewrite He in *; cbn [fst snd] in *; [reflexivity .. |].
    exfalso. apply Hr. reflexivity.
Qed.

(** X8: a later populate overrides an earlier, smaller one.  On a present
    cache, after any populate call with count [n1], a populate with a key
    and a count [n2 >= n1] in range leaves exactly the state it would have
    left without the earlier call. *)
Theorem preload_overrides (w1 w2 : world) (k1 : option (list byte))
    (key2 : list byte) (n1 n2 : N) (c : quantum_cache) :
  n1 <= n2 -> 1 <= n2 <= 10000000 ->
  quantum_cache_preload w2 (Some key2) n2
    (snd (quantum_cache_preload w1 k1 n1 (Some c)))
  = quantum_cache_preload w2 (Some key2) n2 (Some c).
Proof.
  intros Hle Hn2.
  destruct (preload_present w1 k1 n1 c) as [-> | (key1 & _ & _ & ->)];
    [reflexivity |].
  cbn [snd]. rewrite !preload_present_ok by assumption.
  cbn [size seeds index]. do 3 f_equal.
  apply list_eq. intros j.
  rewrite <- (Nat2N.id j). rewrite !for_upto_store_lookup.
  rewrite for_upto_store_length.
  repeat case_decide; try reflexivity; lia.
Qed.

Lemma preload_overrides_witness :
  quantum_cache_preload still_world (Some abc_key) 3
    (snd (quantum_cache_preload busy_world (Some top_key) 2
            (Some three_seeds)))
  = quantum_cache_preload still_world (Some abc_key) 3 (Some three_seeds).
Proof.
  apply (preload_overrides busy_world still_world (Some top_key) abc_key 2 3
           three_seeds); lia.
Defined.

(** ** The key accumulator *)

Import Unmix.

Lemma lor_low (h l n : N) :
  l < 2 ^ n -> N.lor (h * 2 ^ n) l = h * 2 ^ n + l.
Proof.
  intros Hl.
  assert (Hland : N.land (h * 2 ^ n) l = 0).
  { apply N.bits_inj. intros j. rewrite N.land_spec, N.bits_0.
    destruct (N.lt_ge_cases j n) as [Hj | Hj].
    - rewrite N.mul_pow2_bits_low by assumption. reflexivity.
    - rewrite <- (N.mod_small l (2 ^ n)) by assumption.
      rewrite N.mod_pow2_bits_high by assumption.
      apply andb_false_r. }
  rewrite N.add_nocarry_lxor by assumption.
  symmetry. apply N.lxor_lor. assumption.
Qed.

Lemma byte_lt_256 (b : byte) : Byte.to_N b < 2 ^ 8.
Proof. pose proof (Byte.to_N_bounded b). change (2 ^ 8) with 256. lia. Qed.

(** One round of the key loop, on the accumulator reduced modulo 2^64. *)
Lemma key_step (a : N) (b : byte) :
  N.lor (U64.shiftl (a mod 2 ^ 64) 8) (Byte.to_N b)
  = (a * 256 + Byte.to_N b) mod 2 ^ 64.
Proof.
  pose proof (byte_lt_256 b) as Hb.
  unfold U64.shiftl, U64.wrap, U64.modulus.
  rewrite N.shiftl_mul_pow2, N.Div0.mul_mod_idemp_l.
  change (2 ^ 64) with (2 ^ 56 * 2 ^ 8).
  rewrite N.Div0.mul_mod_distr_r, lor_low by assumption.
  change 256 with (2 ^ 8).
  rewrite <- N.Div0.add_mod_idemp_l, N.Div0.mul_mod_distr_r.
  symmetry. apply N.mod_small.
  pose proof (N.mod_lt a (2 ^ 56) ltac:(discriminate)).
  change (2 ^ 8) with 256 in *. lia.
Qed.

Lemma key_loop_value (s : list byte) (a : N) :
  fold_left (fun seed_mix b => N.lor (U64.shiftl seed_mix 8) (Byte.to_N b))
            s (a mod 2 ^ 64)
  = fold_left (fun v b => v * 256 + Byte.to_N b) s a mod 2 ^ 64.
Proof.
  revert a. induction s as [| b s IH]; intros a; [reflexivity |].
  cbn [fold_left]. rewrite key_step. apply IH.
Qed.

Lemma key_value_from (s : list byte) (a : N) :
  fold_left (fun v b => v * 256 + Byte.to_N b) s a
  = a * 256 ^ N.of_nat (length s) + key_value s.
Proof.
  unfold key_value. revert a. induction s as [| b s IH]; intros a.
  - cbn. lia.
  - cbn [fold_left length]. rewrite IH, (IH (0 * 256 + Byte.to_N b)).
    rewrite Nat2N.inj_succ, N.pow_succ_r'. lia.
Qed.

Lemma key_value_lt (s : list byte) : key_value s < 256 ^ N.of_nat (length s).
Proof.
  induction s as [| b s IH] using rev_ind; [reflexivity |].
  unfold key_value in *. rewrite fold_left_app, length_app. cbn [fold_left length].
  pose proof (byte_lt_256 b). change (2 ^ 8) with 256 in *.
  replace (N.of_nat (length s + 1)) with (N.succ (N.of_nat (length s))) by lia.
  rewrite N.pow_succ_r'. lia.
Qed.

Lemma strlen_le (key : list byte) : (strlen key <= length key)%nat.
Proof.
  induction key as [| b key IH]; cbn [strlen length]; [lia |].
  destruct (Byte.eqb b x00); lia.
Qed.

Lemma strlen_stop (s t : list byte) :
  ~ In x00 s -> strlen (s ++ x00 :: t) = length s.
Proof.
  induction s as [| b s IH]; intros Hnin; [reflexivity |].
  cbn [app strlen length].
  destruct (Byte.eqb b x00) eqn:Eb.
  - apply Byte.byte_dec_bl in Eb. subst b. exfalso. apply Hnin. left.
    reflexivity.
  - f_equal. apply IH. intros Hin. apply Hnin. right. exact Hin.
Qed.

(** [quantum_cache_preload] looks at its key through [fold_key] only. *)
Lemma preload_key_ext (w : world) (k1 k2 : list byte) (n : N) (g : global) :
  fold_key k1 = fold_key k2 ->
  quantum_cache_preload w (Some k1) n g
  = quantum_cache_preload w (Some k2) n g.
Proof.
  intros Hk. unfold quantum_cache_preload. rewrite Hk. reflexivity.
Qed.

Lemma fold_key_mod (key : list byte) :
  fold_key key = key_value (firstn (strlen key) key) mod 2 ^ 64.
Proof.
  unfold fold_key, key_value.
  change 0 with (0 mod 2 ^ 64) at 1. apply key_loop_value.
Qed.

(** X9: the key accumulator is the number the string writes in base 256,
    first byte highest, reduced modulo 2^64; the string is the bytes
    before the first NUL.  It is that number itself for a string of at
    most eight bytes, and the accumulator of the empty string is 0. *)
Theorem fold_key_value (key : list byte) :
  fold_key key = key_value (firstn (strlen key) key) mod 2 ^ 64 /\
  ((strlen key <= 8)%nat ->
   fold_key key = key_value (firstn (strlen key) key)) /\
  (strlen key = 0%nat -> fold_key key = 0).
Proof.
  split; [apply fold_key_mod |]. split.
  - intros Hlen. rewrite fold_key_mod. apply N.mod_small.
    pose proof (key_value_lt (firstn (strlen key) key)) as Hlt.
    rewrite length_firstn, Nat.min_l in Hlt by apply strlen_le.
    eapply N.lt_le_trans; [exact Hlt |].
    change (2 ^ 64) with (256 ^ N.of_nat 8).
    apply N.pow_le_mono_r; [discriminate | lia].
  - intros H0. unfold fold_key. rewrite H0. reflexivity.
Qed.

(** X10: only the last eight bytes of a key count.  For a key without NUL
    whose last eight bytes are [s], the accumulator is the 64-bit number
    [s] writes, whatever precedes [s]; populate with the key and with [s]
    alone give the same result in every state. *)
Theorem key_last_eight_bytes (w : world) (p s : list byte) (n : N)
    (g : global) :
  ~ In x00 (p ++ s) -> length s = 8%nat ->
  fold_key (p ++ s) = key_value s /\
  fold_key s = key_value s /\
  quantum_cache_preload w (Some (p ++ s)) n g
  = quantum_cache_preload w (Some s) n g.
Proof.
  intros Hnul Hlen.
  assert (Hs : ~ In x00 s) by (intros H; apply Hnul, in_or_app; auto).
  assert (Hlt : key_value s < 2 ^ 64).
  { pose proof (key_value_lt s) as H. rewrite Hlen in H. exact H. }
  assert (H1 : fold_key (p ++ s) = key_value s).
  { rewrite fold_key_mod, strlen_no_nul, firstn_all by assumption.
    unfold key_value at 1. rewrite fold_left_app, key_value_from, Hlen.
    change (256 ^ N.of_nat 8) with (2 ^ 64).
    rewrite N.add_comm, N.Div0.mod_add. apply N.mod_small. exact Hlt. }
  assert (H2 : fold_key s = key_value s).
  { rewrite fold_key_mod, strlen_no_nul, firstn_all by assumption.
    apply N.mod_small. exact Hlt. }
  split; [exact H1 |]. split; [exact H2 |].
  apply preload_key_ext. congruence.
Qed.

Lemma key_last_eight_bytes_witness :
  fold_key (abc_key ++ top_key) = key_value top_key.
Proof.
  refine (proj1 (key_last_eight_bytes still_world abc_key top_key 1 None _ _)).
  - cbn. intros H. repeat (destruct H as [H | H]; [discriminate H |]).
    exact H.
  - reflexivity.
Defined.

(** X11: what follows the first NUL of the key buffer is not read: the
    accumulator, and so the result of populate, are those of the bytes
    before it. *)
Theorem key_stops_at_nul (w : world) (s t : list byte) (n : N) (g : global) :
  ~ In x00 s ->
  fold_key (s ++ x00 :: t) = fold_key s /\
  quantum_cache_preload w (Some (s ++ x00 :: t)) n g
  = quantum_cache_preload w (Some s) n g.
Proof.
  intros Hs.
  assert (H : fold_key (s ++ x00 :: t) = fold_key s).
  { unfold fold_key. rewrite strlen_stop, strlen_no_nul by assumption.
    rewrite firstn_app, Nat.sub_diag, !firstn_all. cbn [firstn].
    rewrite app_nil_r. reflexivity. }
  split; [exact H | apply preload_key_ext; exact H].
Qed.

Lemma key_stops_at_nul_witness :
  fold_key (abc_key ++ x00 :: top_key) = fold_key abc_key.
Proof.
  refine (proj1 (key_stops_at_nul still_world abc_key top_key 1 None _)).
  cbn. intros H. repeat (destruct H as [H | H]; [discriminate H |]).
  exact H.
Defined.

(** ** The mixing can be undone *)












(** ** The reachable states *)


